(** * ACIM rotor-flux estimator: [AcimEstimator::update]

    A shallow embedding of [Firmware/MotorControl/acim_estimator.cpp].
    The estimator computes with C++ [float]; the embedding computes with
    IEEE-754 binary32 values, built on the parametric specification of
    floating-point arithmetic of the Standard Library ([SpecFloat], taken
    at 24 bits of precision and exponent bound 128, rounding to nearest
    even), every operation of the source rounded on its own. The hardware
    tick counter is a [uint32_t]; it is an integer with its wrap-around
    written out. *)

From Stdlib Require Import ZArith QArith Qpower Qround Bool List Lia Lqa.
From Stdlib Require Import Floats.SpecFloat.
Import ListNotations.

Local Open Scope Z_scope.

(** ** binary32 arithmetic *)

Module F32.

Definition prec : Z := 24.
Definition emax : Z := 128.

Definition float32 : Set := spec_float.

Definition add : float32 -> float32 -> float32 := SFadd prec emax.
Definition sub : float32 -> float32 -> float32 := SFsub prec emax.
Definition mul : float32 -> float32 -> float32 := SFmul prec emax.
Definition div : float32 -> float32 -> float32 := SFdiv prec emax.

(** [std::abs] on a [float]. *)
Definition abs : float32 -> float32 := SFabs.
Definition opp : float32 -> float32 := SFopp.

(** The comparisons of C++: any comparison with a NaN is false. *)
Definition ltb : float32 -> float32 -> bool := SFltb.
Definition leb : float32 -> float32 -> bool := SFleb.
Definition gtb (x y : float32) : bool := SFltb y x.
Definition eqb : float32 -> float32 -> bool := SFeqb.

(** [static_cast<float>] of an integer: the nearest binary32, ties to
    even. *)
Definition of_Z (n : Z) : float32 := binary_normalize prec emax n 0 false.

(** The literal [0.0f]. *)
Definition zero : float32 := S754_zero false.

(** The literal [0.1f]: the binary32 nearest to one tenth,
    13421773 * 2^-27 (bit pattern 0x3DCCCCCD). *)
Definition lit_0_1 : float32 := S754_finite false 13421773 (-27).

(** A number in the proper sense: neither an infinity nor a NaN. *)
Definition is_finite (x : float32) : bool :=
  match x with
  | S754_zero _ | S754_finite _ _ _ => true
  | _ => false
  end.

Definition is_pos_finite (x : float32) : bool :=
  match x with
  | S754_finite false _ _ => true
  | _ => false
  end.

(** The rational value of a float; an infinity or a NaN has none and is
    sent to 0 (every use below is guarded by [is_finite]). *)
Definition to_Q (x : float32) : Q :=
  match x with
  | S754_finite s m e =>
      let n := if s then Z.neg m else Z.pos m in
      match e with
      | Z0 => inject_Z n
      | Zpos p => inject_Z (n * Z.pow_pos 2 p)
      | Zneg p => Qmake n (Pos.pow 2 p)
      end
  | _ => 0%Q
  end.

End F32.

Export F32 (float32).

Declare Scope f32_scope.
Delimit Scope f32_scope with f32.
Infix "+" := F32.add : f32_scope.
Infix "-" := F32.sub : f32_scope.
Infix "*" := F32.mul : f32_scope.
Infix "/" := F32.div : f32_scope.
Infix ">?" := F32.gtb : f32_scope.
Infix "<=?" := F32.leb : f32_scope.

(** Modelled from the spec: [is_nan] (declared in a header that is not
    part of the sources). The spec reads the guard as "if the result is
    not-a-number". *)
Definition is_nan (x : float32) : bool :=
  match x with
  | S754_nan => true
  | _ => false
  end.

(** ** The estimator object *)

(** [AcimEstimator::Config_t]: the one field [update] reads. The spec calls
    it [slip_gain]. *)
Record Config_t : Set := { slip_velocity : float32 }.

(** The members of [AcimEstimator] that [update] reads or writes. The
    three output ports hold the last value written to them. *)
Record AcimEstimator : Set := {
  config_ : Config_t;
  active_ : bool;
  last_timestamp_ : Z;
  rotor_flux_ : float32;
  phase_offset_ : float32;
  slip_vel_ : float32;
  stator_phase_vel_ : float32;
  stator_phase_ : float32
}.

(** What the three input ports hold in one cycle: [present()] gives a
    [std::optional]; [idq] is the pair (id, iq). *)
Record InputPorts : Set := {
  rotor_phase_src_ : option float32;
  rotor_phase_vel_src_ : option float32;
  idq_src_ : option (float32 * float32)
}.

(** [uint32_t] subtraction. *)
Definition sub_u32 (a b : Z) : Z := (a - b) mod 2 ^ 32.

Definition is_u32 (n : Z) : Prop := 0 <= n < 2 ^ 32.

Section Update.

(** The timer clock in Hz, a constant of [board.h], which is not part
    of the sources. *)
Variable TIM_1_8_CLOCK_HZ : Z.

(** [wrap_pm_pi], a helper of a header that is not part of the sources.
    [update] is parametric in it; what the spec says of it is
    [wraps_angles_into_pm_pi] below. *)
Variable wrap_pm_pi : float32 -> float32.

(** Line 32: the time step in seconds. *)
Definition time_step (timestamp last_timestamp : Z) : float32 :=
  (F32.of_Z (sub_u32 timestamp last_timestamp) / F32.of_Z TIM_1_8_CLOCK_HZ)%f32.

(** Lines 51-52: one explicit Euler step of the rotor-flux lag. *)
Definition flux_step (k id rotor_flux dt : float32) : float32 :=
  let dflux_by_dt := (k * (id - rotor_flux))%f32 in
  (rotor_flux + dflux_by_dt * dt)%f32.

(** Line 56: the slip velocity before the guard. *)
Definition raw_slip (k iq rotor_flux : float32) : float32 :=
  (k * (iq / rotor_flux))%f32.

(** Lines 60-62: the guard. *)
Definition clamp_slip (slip_velocity dt : float32) : float32 :=
  if is_nan slip_velocity || (F32.abs slip_velocity >? F32.lit_0_1 / dt)%f32
  then F32.zero
  else slip_velocity.

Definition update (self : AcimEstimator) (ports : InputPorts) (timestamp : Z)
  : AcimEstimator :=
  match rotor_phase_src_ ports, rotor_phase_vel_src_ ports, idq_src_ ports with
  | Some rotor_phase, Some rotor_phase_vel, Some (id, iq) =>
      let dt := time_step timestamp (last_timestamp_ self) in
      if negb (active_ self) then
        {| config_ := config_ self;
           active_ := true;
           last_timestamp_ := timestamp;
           rotor_flux_ := F32.zero;
           phase_offset_ := F32.zero;
           slip_vel_ := slip_vel_ self;
           stator_phase_vel_ := stator_phase_vel_ self;
           stator_phase_ := stator_phase_ self |}
      else
        let rotor_flux :=
          flux_step (slip_velocity (config_ self)) id (rotor_flux_ self) dt in
        let slip_velocity :=
          clamp_slip (raw_slip (slip_velocity (config_ self)) iq rotor_flux) dt in
        let phase_offset :=
          wrap_pm_pi (phase_offset_ self + slip_velocity * dt)%f32 in
        {| config_ := config_ self;
           active_ := true;
           last_timestamp_ := timestamp;
           rotor_flux_ := rotor_flux;
           phase_offset_ := phase_offset;
           slip_vel_ := slip_velocity;
           stator_phase_vel_ := (rotor_phase_vel + slip_velocity)%f32;
           stator_phase_ := wrap_pm_pi (rotor_phase + phase_offset)%f32 |}
  | _, _, _ =>
      {| config_ := config_ self;
         active_ := false;
         last_timestamp_ := last_timestamp_ self;
         rotor_flux_ := rotor_flux_ self;
         phase_offset_ := phase_offset_ self;
         slip_vel_ := slip_vel_ self;
         stator_phase_vel_ := stator_phase_vel_ self;
         stator_phase_ := stator_phase_ self |}
  end.

End Update.

(** A sequence of control cycles: each gives what the ports hold and the
    tick count. *)
Fixpoint run (clock : Z) (wrap : float32 -> float32) (self : AcimEstimator)
  (cycles : list (InputPorts * Z)) : AcimEstimator :=
  match cycles with
  | [] => self
  | (ports, timestamp) :: rest =>
      run clock wrap (update clock wrap self ports timestamp) rest
  end.

(** All three ports hold a value. *)
Definition present (rotor_phase rotor_phase_vel id iq : float32) : InputPorts :=
  {| rotor_phase_src_ := Some rotor_phase;
     rotor_phase_vel_src_ := Some rotor_phase_vel;
     idq_src_ := Some (id, iq) |}.

(** At least one port holds nothing. *)
Definition input_missing (ports : InputPorts) : Prop :=
  rotor_phase_src_ ports = None \/
  rotor_phase_vel_src_ ports = None \/
  idq_src_ ports = None.

(** The state a cycle with a missing input leaves behind. *)
Definition deactivated (self : AcimEstimator) : AcimEstimator :=
  {| config_ := config_ self;
     active_ := false;
     last_timestamp_ := last_timestamp_ self;
     rotor_flux_ := rotor_flux_ self;
     phase_offset_ := phase_offset_ self;
     slip_vel_ := slip_vel_ self;
     stator_phase_vel_ := stator_phase_vel_ self;
     stator_phase_ := stator_phase_ self |}.

(** ** The range of a wrapped angle *)

(** The binary32 nearest to pi, 13176795 * 2^-22: the bound of the range
    in the estimator's own number format. *)
Definition pi_f32 : float32 := S754_finite false 13176795 (-22).

Definition in_pm_pi (x : float32) : bool :=
  (F32.opp pi_f32 <=? x)%f32 && (x <=? pi_f32)%f32.



(** The number of whole turns nearest to an angle given as a rational. *)
Definition nearest_turn (x period : Q) : Z :=
  Qfloor (x / period + (1 # 2))%Q.

(** Modelled from the spec: one [wrap_pm_pi] that meets
    [wraps_angles_into_pm_pi], for running the estimator on concrete
    inputs. It removes the nearest number of whole turns; where that does
    not land in the range (an argument that is infinite or no number, or
    too large for the subtraction to be accurate) it gives 0. *)
Definition wrap_pm_pi_model (x : float32) : float32 :=
  let two_pi := (F32.of_Z 2 * pi_f32)%f32 in
  let turns := nearest_turn (F32.to_Q x) (F32.to_Q two_pi) in
  let r := (x - F32.of_Z turns * two_pi)%f32 in
  if in_pm_pi r then r else F32.zero.


(** The arguments that one call of [update] hands to [wrap_pm_pi]: those
    of lines 71 and 74 in a call that integrates, none in the other two
    branches. *)
Definition wrap_arguments (clock : Z) (wrap : float32 -> float32)
    (self : AcimEstimator) (ports : InputPorts) (timestamp : Z)
  : list float32 :=
  match rotor_phase_src_ ports, rotor_phase_vel_src_ ports, idq_src_ ports with
  | Some rotor_phase, Some _, Some (id, iq) =>
      let dt := time_step clock timestamp (last_timestamp_ self) in
      if negb (active_ self) then []
      else
        let rotor_flux :=
          flux_step (slip_velocity (config_ self)) id (rotor_flux_ self) dt in
        let slip_velocity :=
          clamp_slip (raw_slip (slip_velocity (config_ self)) iq rotor_flux) dt in
        let phase_offset_arg := (phase_offset_ self + slip_velocity * dt)%f32 in
        [phase_offset_arg; (rotor_phase + wrap phase_offset_arg)%f32]
  | _, _, _ => []
  end.


(** ** The values of binary32 numbers *)

(** The exponent of the last place of a number of magnitude [e]:
    24 bits, and no exponent below -149. *)
Definition fexp32 (e : Z) : Z := Z.max (e - 24) (-149).

(** After [k] single shifts of an exact mantissa [m0]: the quotient by
    [2^k], and a round bit that is set only if the remainder is at least
    half. *)
Definition shifted (m0 : Z) (k : nat) (rec : shr_record) : Prop :=
  shr_m rec = m0 / 2 ^ Z.of_nat k /\
  (shr_r rec = true -> 2 ^ Z.of_nat k <= 2 * (m0 mod 2 ^ Z.of_nat k)).

Definition pow2 (e : Z) : Q := (2 ^ e)%Q.

(** The rational [m * 2^e]. *)
Definition val (m e : Z) : Q := (inject_Z m * pow2 e)%Q.

(** The relative rounding error of a normal number, and half the
    spacing of the subnormal ones. *)
Definition u24 : Q := pow2 (-24).
Definition half_eta : Q := pow2 (-150).

(** A value on the grid of the smallest subnormal, 2^-149. Every finite
    binary32 lies on it. *)
Definition on_grid (q : Q) : Prop := exists j : Z, (q == val j (-149))%Q.

(** ** The step sizes for which the flux lag does not overshoot *)

(** The bound on [slip_gain * dt] for steps of at most one second:
    [1 - 2^-20]. *)
Definition gain_step_max : Q := 1048575 # 1048576.

(** [slip_gain * dt] is at most 1/4, or [dt] is at most one second and
    [slip_gain * dt] at most [1 - 2^-20]. The products are those of the
    values, not rounded. *)
Definition gain_step_ok (k dt : float32) : bool :=
  Qle_bool (F32.to_Q k * F32.to_Q dt) (1 # 4) ||
  (Qle_bool (F32.to_Q dt) 1 &&
   Qle_bool (F32.to_Q k * F32.to_Q dt) gain_step_max).

(** ** Concrete data *)

Module Example.

(** The clock of the spec's scenario. *)
Definition clock : Z := 8000000.

Definition f (n : Z) : float32 := F32.of_Z n.

Definition cfg50 : Config_t := {| slip_velocity := f 50 |}.

(** An estimator that has not run yet. *)
Definition fresh : AcimEstimator :=
  {| config_ := cfg50; active_ := false; last_timestamp_ := 0;
     rotor_flux_ := F32.zero; phase_offset_ := F32.zero;
     slip_vel_ := F32.zero; stator_phase_vel_ := F32.zero;
     stator_phase_ := F32.zero |}.

(** An estimator deactivated in mid-run, its outputs stale. *)
Definition stale : AcimEstimator :=
  {| config_ := cfg50; active_ := false; last_timestamp_ := 12345;
     rotor_flux_ := f 7; phase_offset_ := f 1;
     slip_vel_ := f 2; stator_phase_vel_ := f 3;
     stator_phase_ := f (-1) |}.

(** An estimator in the Active state. *)
Definition running : AcimEstimator :=
  {| config_ := cfg50; active_ := true; last_timestamp_ := 1000;
     rotor_flux_ := f 8; phase_offset_ := f 1;
     slip_vel_ := f 2; stator_phase_vel_ := f 3;
     stator_phase_ := f (-1) |}.

(** An active estimator whose last tick is 400 short of the counter's
    overflow. *)
Definition near_overflow : AcimEstimator :=
  {| config_ := cfg50; active_ := true; last_timestamp_ := 2 ^ 32 - 400;
     rotor_flux_ := f 8; phase_offset_ := f 1;
     slip_vel_ := f 2; stator_phase_vel_ := f 3;
     stator_phase_ := f (-1) |}.

(** An active estimator with [slip_gain = 1] and a flux far below
    zero. *)
Definition unit_gain : AcimEstimator :=
  {| config_ := {| slip_velocity := f 1 |}; active_ := true;
     last_timestamp_ := 0;
     rotor_flux_ := f (-1000); phase_offset_ := F32.zero;
     slip_vel_ := F32.zero; stator_phase_vel_ := F32.zero;
     stator_phase_ := F32.zero |}.

(** The ports of the scenario's second call. *)
Definition ports : InputPorts := present F32.zero (f 100) (f 10) (f 5).

Definition no_idq : InputPorts :=
  {| rotor_phase_src_ := Some F32.zero;
     rotor_phase_vel_src_ := Some (f 100);
     idq_src_ := None |}.

(** The state right after a bootstrap at tick 0. *)
Definition booted : AcimEstimator :=
  update clock wrap_pm_pi_model fresh ports 0.

(** The largest binary32, (2^24 - 1) * 2^104. *)
Definition max_float : float32 := S754_finite false 16777215 104.

(** An active estimator with [slip_gain] the binary32 nearest to 0.3 and
    no flux yet. *)
Definition slow_gain : AcimEstimator :=
  {| config_ := {| slip_velocity := (f 3 / f 10)%f32 |}; active_ := true;
     last_timestamp_ := 0;
     rotor_flux_ := F32.zero; phase_offset_ := F32.zero;
     slip_vel_ := F32.zero; stator_phase_vel_ := F32.zero;
     stator_phase_ := F32.zero |}.

(** Twice the smallest positive binary32, 2 * 2^-149. *)
Definition two_eta : float32 := S754_finite false 2 (-149).

End Example.

(** ** Vocabulary for further properties of [update] *)

(** Line 22, read positively: every port holds a value. *)
Definition all_present (ports : InputPorts) : bool :=
  match rotor_phase_src_ ports, rotor_phase_vel_src_ ports, idq_src_ ports with
  | Some _, Some _, Some _ => true
  | _, _, _ => false
  end.

(** A float that is a zero, a number or an infinity with its sign bit
    clear. *)
Definition sign_clear (x : float32) : bool :=
  match x with
  | S754_zero false | S754_infinity false | S754_finite false _ _ => true
  | _ => false
  end.

Definition is_infinite (x : float32) : bool :=
  match x with
  | S754_infinity _ => true
  | _ => false
  end.

(** The same object with another value of [last_timestamp_]. *)
Definition with_last_timestamp (self : AcimEstimator) (t : Z) : AcimEstimator :=
  {| config_ := config_ self;
     active_ := active_ self;
     last_timestamp_ := t;
     rotor_flux_ := rotor_flux_ self;
     phase_offset_ := phase_offset_ self;
     slip_vel_ := slip_vel_ self;
     stator_phase_vel_ := stator_phase_vel_ self;
     stator_phase_ := stator_phase_ self |}.

(** Everything [update] computes in floating point, [last_timestamp_] left
    aside. *)
Definition same_estimate (a b : AcimEstimator) : Prop :=
  config_ a = config_ b /\ active_ a = active_ b /\
  rotor_flux_ a = rotor_flux_ b /\ phase_offset_ a = phase_offset_ b /\
  slip_vel_ a = slip_vel_ b /\ stator_phase_vel_ a = stator_phase_vel_ b /\
  stator_phase_ a = stator_phase_ b.

Module ExtraExample.

(** An active estimator whose flux has become a NaN. *)
Definition poisoned : AcimEstimator :=
  {| config_ := Example.cfg50; active_ := true; last_timestamp_ := 1000;
     rotor_flux_ := S754_nan; phase_offset_ := Example.f 1;
     slip_vel_ := Example.f 2; stator_phase_vel_ := Example.f 3;
     stator_phase_ := Example.f (-1) |}.

(** An active estimator whose flux has reached a d-axis current of 10. *)
Definition settled : AcimEstimator :=
  {| config_ := Example.cfg50; active_ := true; last_timestamp_ := 1000;
     rotor_flux_ := Example.f 10; phase_offset_ := Example.f 1;
     slip_vel_ := Example.f 2; stator_phase_vel_ := Example.f 3;
     stator_phase_ := Example.f (-1) |}.

(** Ports with no d-axis current: the flux of a fresh start stays 0. *)
Definition ports_id0 : InputPorts :=
  present F32.zero (Example.f 100) F32.zero (Example.f 5).

End ExtraExample.

(** * Properties of [update] *)

(** ** The three branches *)

Section Branches.

Variable clock : Z.
Variable wrap : float32 -> float32.

Lemma update_missing self ports timestamp :
  input_missing ports ->
  update clock wrap self ports timestamp = deactivated self.
Proof.
  unfold input_missing, update.
  destruct (rotor_phase_src_ ports), (rotor_phase_vel_src_ ports),
    (idq_src_ ports) as [[id iq]|]; intros [H | [H | H]];
    try discriminate H; reflexivity.
Qed.

Lemma update_bootstrap self rotor_phase rotor_phase_vel id iq timestamp :
  active_ self = false ->
  update clock wrap self (present rotor_phase rotor_phase_vel id iq) timestamp =
  {| config_ := config_ self;
     active_ := true;
     last_timestamp_ := timestamp;
     rotor_flux_ := F32.zero;
     phase_offset_ := F32.zero;
     slip_vel_ := slip_vel_ self;
     stator_phase_vel_ := stator_phase_vel_ self;
     stator_phase_ := stator_phase_ self |}.
Proof.
  intros Hact. unfold update, present; cbn. rewrite Hact. reflexivity.
Qed.

Lemma update_integrate self rotor_phase rotor_phase_vel id iq timestamp :
  active_ self = true ->
  update clock wrap self (present rotor_phase rotor_phase_vel id iq) timestamp =
  let k := slip_velocity (config_ self) in
  let dt := time_step clock timestamp (last_timestamp_ self) in
  let rotor_flux := flux_step k id (rotor_flux_ self) dt in
  let slip := clamp_slip (raw_slip k iq rotor_flux) dt in
  let phase_offset := wrap (phase_offset_ self + slip * dt)%f32 in
  {| config_ := config_ self;
     active_ := true;
     last_timestamp_ := timestamp;
     rotor_flux_ := rotor_flux;
     phase_offset_ := phase_offset;
     slip_vel_ := slip;
     stator_phase_vel_ := (rotor_phase_vel + slip)%f32;
     stator_phase_ := wrap (rotor_phase + phase_offset)%f32 |}.
Proof.
  intros Hact. unfold update, present; cbn. rewrite Hact. reflexivity.
Qed.

(** C1. A cycle in which at least one of the three inputs is absent sets
    [active] to false and leaves every other member as it was:
    [rotor_flux], [phase_offset], [stator_phase], [stator_phase_vel],
    [slip_vel] and [last_timestamp] (and the configuration). *)
Theorem update_missing_input_only_deactivates self ports timestamp :
  input_missing ports ->
  let self' := update clock wrap self ports timestamp in
  active_ self' = false /\
  rotor_flux_ self' = rotor_flux_ self /\
  phase_offset_ self' = phase_offset_ self /\
  stator_phase_ self' = stator_phase_ self /\
  stator_phase_vel_ self' = stator_phase_vel_ self /\
  slip_vel_ self' = slip_vel_ self /\
  last_timestamp_ self' = last_timestamp_ self /\
  config_ self' = config_ self.
Proof.
  intros Hmiss self'. subst self'.
  rewrite (update_missing _ _ _ Hmiss). cbn. repeat split.
Qed.

(** C2. With all three inputs present and [active] false before the
    call, the call sets [rotor_flux] and [phase_offset] to 0 and
    [active] to true, and [stator_phase] and [stator_phase_vel] keep
    their prior values. *)
Theorem update_bootstrap_resets self rotor_phase rotor_phase_vel id iq timestamp :
  active_ self = false ->
  let self' :=
    update clock wrap self (present rotor_phase rotor_phase_vel id iq) timestamp in
  rotor_flux_ self' = F32.zero /\
  phase_offset_ self' = F32.zero /\
  active_ self' = true /\
  stator_phase_ self' = stator_phase_ self /\
  stator_phase_vel_ self' = stator_phase_vel_ self.
Proof.
  intros Hact self'. subst self'.
  rewrite update_bootstrap by exact Hact. cbn. repeat split.
Qed.

(** C9. The bootstrap cycle writes no output signal: [slip_vel] is left
    as it was, like [stator_phase] and [stator_phase_vel]; the members
    it modifies are [rotor_flux], [phase_offset], [active] and
    [last_timestamp], and no other. *)
Theorem update_bootstrap_frame self rotor_phase rotor_phase_vel id iq timestamp :
  active_ self = false ->
  let self' :=
    update clock wrap self (present rotor_phase rotor_phase_vel id iq) timestamp in
  slip_vel_ self' = slip_vel_ self /\
  self' = {| config_ := config_ self;
             active_ := active_ self';
             last_timestamp_ := last_timestamp_ self';
             rotor_flux_ := rotor_flux_ self';
             phase_offset_ := phase_offset_ self';
             slip_vel_ := slip_vel_ self;
             stator_phase_vel_ := stator_phase_vel_ self;
             stator_phase_ := stator_phase_ self |}.
Proof.
  intros Hact self'. subst self'.
  rewrite update_bootstrap by exact Hact. cbn. split; reflexivity.
Qed.

(** C4. In a cycle with all inputs present and [active] already true,
    the [stator_phase_vel] written is the binary32 sum of
    [rotor_phase_vel] and the slip velocity of that cycle, the one
    written to [slip_vel] after the guard. *)
Theorem update_stator_phase_vel self rotor_phase rotor_phase_vel id iq timestamp :
  active_ self = true ->
  let self' :=
    update clock wrap self (present rotor_phase rotor_phase_vel id iq) timestamp in
  stator_phase_vel_ self' = (rotor_phase_vel + slip_vel_ self')%f32 /\
  slip_vel_ self' =
    clamp_slip
      (raw_slip (slip_velocity (config_ self)) iq (rotor_flux_ self'))
      (time_step clock timestamp (last_timestamp_ self)).
Proof.
  intros Hact self'. subst self'.
  rewrite update_integrate by exact Hact. cbn. split; reflexivity.
Qed.

End Branches.

(** ** The time step *)

Lemma sub_u32_wraps timestamp last_timestamp :
  is_u32 timestamp -> is_u32 last_timestamp ->
  sub_u32 timestamp last_timestamp =
  if timestamp <? last_timestamp
  then timestamp + 2 ^ 32 - last_timestamp
  else timestamp - last_timestamp.
Proof.
  unfold is_u32, sub_u32. intros Ht Hl.
  destruct (Z.ltb_spec timestamp last_timestamp).
  - replace (timestamp - last_timestamp)
      with (timestamp + 2 ^ 32 - last_timestamp + (-1) * 2 ^ 32) by lia.
    rewrite Z.mod_add by lia. apply Z.mod_small. lia.
  - apply Z.mod_small. lia.
Qed.

(** C6. In every cycle with all three inputs present, bootstrap or not,
    [last_timestamp] becomes [timestamp]. The time step is the tick
    difference taken modulo 2^32 (so a counter that overflowed once
    between the two calls gives [timestamp + 2^32 - last_timestamp]),
    converted to [float] and divided by the clock frequency converted to
    [float]; it is the step the integration uses. *)
Theorem update_time_step clock wrap self rotor_phase rotor_phase_vel id iq timestamp :
  is_u32 timestamp -> is_u32 (last_timestamp_ self) ->
  let self' :=
    update clock wrap self (present rotor_phase rotor_phase_vel id iq) timestamp in
  let ticks :=
    if timestamp <? last_timestamp_ self
    then timestamp + 2 ^ 32 - last_timestamp_ self
    else timestamp - last_timestamp_ self in
  let dt := (F32.of_Z ticks / F32.of_Z clock)%f32 in
  last_timestamp_ self' = timestamp /\
  ticks = (timestamp - last_timestamp_ self) mod 2 ^ 32 /\
  time_step clock timestamp (last_timestamp_ self) = dt /\
  (active_ self = true ->
   rotor_flux_ self' =
     flux_step (slip_velocity (config_ self)) id (rotor_flux_ self) dt /\
   phase_offset_ self' = wrap (phase_offset_ self + slip_vel_ self' * dt)%f32).
Proof.
  intros Ht Hl self' ticks dt.
  assert (Hticks : sub_u32 timestamp (last_timestamp_ self) = ticks)
    by (apply sub_u32_wraps; assumption).
  assert (Hdt : time_step clock timestamp (last_timestamp_ self) = dt)
    by (unfold time_step; rewrite Hticks; reflexivity).
  subst self'. repeat split.
  - destruct (active_ self) eqn:Hact.
    + rewrite update_integrate by exact Hact. reflexivity.
    + rewrite update_bootstrap by exact Hact. reflexivity.
  - symmetry. exact Hticks.
  - exact Hdt.
  - rewrite update_integrate by assumption. cbn. rewrite Hdt. reflexivity.
  - rewrite update_integrate by assumption. cbn. rewrite Hdt. reflexivity.
Qed.

(** ** Facts of binary32 arithmetic *)

Module F32Facts.

Import F32.

(** Rounding a non-negative mantissa never gives a NaN: the shifts and
    the rounding keep the mantissa non-negative. *)
Lemma iter_pos_invariant {A} (P : A -> Prop) (f : A -> A) :
  (forall x, P x -> P (f x)) -> forall n x, P x -> P (iter_pos f n x).
Proof.
  intros Hf. induction n as [n IH | n IH |]; intros x Hx; cbn; auto.
Qed.

Lemma shr_1_nonneg mrs : 0 <= shr_m mrs -> 0 <= shr_m (shr_1 mrs).
Proof.
  destruct mrs as [m r s]; cbn.
  destruct m as [| [p | p |] | p]; cbn; lia.
Qed.

Lemma shr_nonneg mrs e n : 0 <= shr_m mrs -> 0 <= shr_m (fst (shr mrs e n)).
Proof.
  intros H. destruct n; cbn; auto.
  apply (iter_pos_invariant (fun x => 0 <= shr_m x)); auto using shr_1_nonneg.
Qed.

Lemma shr_record_of_loc_m m l : shr_m (shr_record_of_loc m l) = m.
Proof. destruct l as [| []]; reflexivity. Qed.

Lemma shr_fexp_nonneg m e l :
  0 <= m -> 0 <= shr_m (fst (shr_fexp prec emax m e l)).
Proof.
  intros H. unfold shr_fexp. apply shr_nonneg.
  rewrite shr_record_of_loc_m. exact H.
Qed.

Lemma round_nearest_even_nonneg m l : 0 <= m -> 0 <= round_nearest_even m l.
Proof.
  intros H. destruct l as [| []]; cbn; try lia.
  destruct (Z.even m); lia.
Qed.

Lemma binary_round_aux_not_nan sx mx ex lx :
  0 <= mx -> is_nan (binary_round_aux prec emax sx mx ex lx) = false.
Proof.
  intros H. unfold binary_round_aux.
  pose proof (shr_fexp_nonneg mx ex lx H) as H1.
  destruct (shr_fexp prec emax mx ex lx) as [mrs' e']. cbn in H1.
  pose proof (shr_fexp_nonneg _ e' loc_Exact
                (round_nearest_even_nonneg _ (loc_of_shr_record mrs') H1)) as H2.
  destruct (shr_fexp prec emax _ e' loc_Exact) as [mrs'' e'']. cbn in H2.
  destruct (shr_m mrs'') as [| m | m]; try reflexivity.
  - destruct (e'' <=? emax - prec); reflexivity.
  - lia.
Qed.

Lemma of_Z_not_nan n : is_nan (of_Z n) = false.
Proof.
  unfold of_Z, binary_normalize, binary_round.
  destruct n as [| m | m]; try reflexivity;
    destruct (shl_align m 0 _) as [mz ez];
    apply binary_round_aux_not_nan; lia.
Qed.

Lemma div_core_nonneg m1 e1 m2 e2 :
  0 <= fst (fst (SFdiv_core_binary prec emax (Z.pos m1) e1 (Z.pos m2) e2)).
Proof.
  unfold SFdiv_core_binary.
  set (s := _ - _ - Z.min _ _).
  set (m' := match s with Z0 => _ | Z.pos _ => _ | Z.neg _ => _ end).
  assert (Hm' : 0 <= m').
  { subst m'. destruct s; try lia. apply Z.shiftl_nonneg. lia. }
  pose proof (Z.div_pos m' (Z.pos m2) Hm' ltac:(lia)) as Hq.
  unfold Z.div in Hq.
  destruct (Z.div_eucl m' (Z.pos m2)) as [q r]. exact Hq.
Qed.

(** A quotient is a NaN only for 0/0, inf/inf or a NaN operand. *)
Lemma div_finite_not_nan sx mx ex sy my ey :
  is_nan (div (S754_finite sx mx ex) (S754_finite sy my ey)) = false.
Proof.
  unfold div, SFdiv.
  pose proof (div_core_nonneg mx ex my ey) as H.
  destruct (SFdiv_core_binary prec emax (Z.pos mx) ex (Z.pos my) ey)
    as [[mz ez] lz]. cbn in H.
  apply binary_round_aux_not_nan. exact H.
Qed.

Lemma div_by_pos_finite_not_nan x y :
  is_nan x = false -> is_pos_finite y = true -> is_nan (div x y) = false.
Proof.
  destruct y as [| | | [] my ey]; try discriminate. intros Hx _.
  destruct x as [sx | sx | | sx mx ex]; try discriminate; try reflexivity.
  apply div_finite_not_nan.
Qed.

Lemma div_finite_by_not_nan s m e y :
  is_nan y = false -> is_nan (div (S754_finite s m e) y) = false.
Proof.
  destruct y as [sy | sy | | sy my ey]; try discriminate; intros _;
    try reflexivity.
  apply div_finite_not_nan.
Qed.

Lemma abs_not_nan x : is_nan (abs x) = is_nan x.
Proof. destruct x; reflexivity. Qed.

(** The comparison of two floats, read from the other side. *)
Lemma SFcompare_swap x y :
  SFcompare y x = option_map CompOpp (SFcompare x y).
Proof.
  destruct x as [sx | sx | | sx mx ex], y as [sy | sy | | sy my ey]; cbn;
    try reflexivity;
    try (destruct sx; reflexivity);
    try (destruct sy; reflexivity);
    try (destruct sx, sy; reflexivity).
  pose proof (Pos.compare_cont_antisym mx my Eq) as Hm. cbn in Hm.
  destruct sx, sy; try reflexivity;
    rewrite (Z.compare_antisym ex ey);
    destruct (ex ?= ey); cbn; try reflexivity;
    rewrite <- Hm;
    destruct (Pos.compare_cont Eq mx my); reflexivity.
Qed.

Lemma SFcompare_not_nan x y :
  is_nan x = false -> is_nan y = false -> exists c, SFcompare x y = Some c.
Proof.
  destruct x, y; try discriminate; intros _ _; cbn; eauto.
Qed.

(** Away from NaN, [x > y] is the negation of [x <= y]. *)
Lemma gtb_negb_leb x y :
  is_nan x = false -> is_nan y = false -> gtb x y = negb (leb x y).
Proof.
  intros Hx Hy. unfold gtb, leb, SFltb, SFleb.
  rewrite (SFcompare_swap x y).
  destruct (SFcompare_not_nan x y Hx Hy) as [c ->].
  destruct c; reflexivity.
Qed.

(** Nothing is greater than plus infinity. *)
Lemma gtb_infinity x : gtb x (S754_infinity false) = false.
Proof. destruct x as [s | [] | | s m e]; reflexivity. Qed.

Lemma mul_finite_zero x :
  is_finite x = true ->
  mul x zero = S754_zero false \/ mul x zero = S754_zero true.
Proof.
  destruct x as [[] | | | [] m e]; try discriminate; intros _; cbn; auto.
Qed.

(** Adding a zero changes nothing but, possibly, the sign of a zero. *)
Lemma add_zero_r x s :
  add x (S754_zero s) = x \/
  (x = S754_zero true /\ add x (S754_zero s) = S754_zero false).
Proof.
  destruct x as [[] | sx | | sx m e], s; cbn; auto.
Qed.

End F32Facts.

(** ** The slip velocity and its guard *)

Section Slip.

Variable clock : Z.
Variable wrap : float32 -> float32.

(** The clock frequency converts to a positive binary32 number. *)
Hypothesis clock_positive : F32.is_pos_finite (F32.of_Z clock) = true.

Lemma time_step_not_nan timestamp last_timestamp :
  is_nan (time_step clock timestamp last_timestamp) = false.
Proof.
  unfold time_step.
  apply F32Facts.div_by_pos_finite_not_nan;
    [apply F32Facts.of_Z_not_nan | exact clock_positive].
Qed.

Lemma threshold_not_nan timestamp last_timestamp :
  is_nan (F32.lit_0_1 / time_step clock timestamp last_timestamp)%f32 = false.
Proof.
  apply F32Facts.div_finite_by_not_nan, time_step_not_nan.
Qed.

(** The guard, read positively: the slip is kept when it is a number or
    an infinity within the threshold. *)
Lemma clamp_slip_spec slip timestamp last_timestamp :
  let dt := time_step clock timestamp last_timestamp in
  clamp_slip slip dt =
  if negb (is_nan slip) && (F32.abs slip <=? F32.lit_0_1 / dt)%f32
  then slip else F32.zero.
Proof.
  cbn. unfold clamp_slip.
  destruct (is_nan slip) eqn:Hnan; cbn; [reflexivity |].
  rewrite F32Facts.gtb_negb_leb.
  - destruct (F32.leb _ _); reflexivity.
  - rewrite F32Facts.abs_not_nan. exact Hnan.
  - apply threshold_not_nan.
Qed.

(** C3, amended. In a cycle with all inputs present and [active]
    already true, let q be [slip_gain * (iq / rotor_flux')], with
    [rotor_flux'] the flux after the Euler step of the same cycle. The
    value written to [slip_vel] is q whenever q is not a NaN and
    [|q| <= 0.1f / dt], and 0 otherwise. An infinite q meets the
    condition when [dt = 0] makes the threshold infinite. *)
Theorem update_slip_vel self rotor_phase rotor_phase_vel id iq timestamp :
  active_ self = true ->
  let self' :=
    update clock wrap self (present rotor_phase rotor_phase_vel id iq) timestamp in
  let dt := time_step clock timestamp (last_timestamp_ self) in
  let q := raw_slip (slip_velocity (config_ self)) iq (rotor_flux_ self') in
  slip_vel_ self' =
  if negb (is_nan q) && (F32.abs q <=? F32.lit_0_1 / dt)%f32
  then q else F32.zero.
Proof.
  intros Hact self' dt q. subst self' dt q.
  rewrite update_integrate by exact Hact. cbn.
  apply clamp_slip_spec.
Qed.

Lemma time_step_duplicate timestamp :
  time_step clock timestamp timestamp = F32.zero.
Proof.
  unfold time_step, sub_u32. rewrite Z.sub_diag, Z.mod_0_l by lia.
  destruct (F32.of_Z clock) as [| | | [] m e]; try discriminate clock_positive.
  reflexivity.
Qed.

Lemma clamp_slip_zero_step slip :
  clamp_slip slip F32.zero = if is_nan slip then F32.zero else slip.
Proof.
  unfold clamp_slip.
  change (F32.lit_0_1 / F32.zero)%f32 with (S754_infinity false).
  rewrite F32Facts.gtb_infinity, orb_false_r. reflexivity.
Qed.

Lemma flux_step_zero_step k id rotor_flux :
  F32.is_finite (k * (id - rotor_flux))%f32 = true ->
  flux_step k id rotor_flux F32.zero = rotor_flux \/
  (rotor_flux = S754_zero true /\
   flux_step k id rotor_flux F32.zero = S754_zero false).
Proof.
  intros Hfin. unfold flux_step.
  destruct (F32Facts.mul_finite_zero _ Hfin) as [-> | ->];
    apply F32Facts.add_zero_r.
Qed.

(** C10, amended. In a cycle with all inputs present, [active] already
    true and [timestamp = last_timestamp]: [dt] is 0 and the threshold
    [0.1f / dt] is plus infinity; [rotor_flux] is left as it was
    provided [slip_gain * (id - rotor_flux)] is a finite number (a
    negative zero may become the positive zero); any finite slip
    quotient [slip_gain * (iq / rotor_flux)] is written to [slip_vel]
    and added into [stator_phase_vel] as it is; [phase_offset] and
    [stator_phase] are wrapped as in every cycle. *)
Theorem update_duplicate_timestamp self rotor_phase rotor_phase_vel id iq :
  active_ self = true ->
  let timestamp := last_timestamp_ self in
  let self' :=
    update clock wrap self (present rotor_phase rotor_phase_vel id iq) timestamp in
  let k := slip_velocity (config_ self) in
  let q := raw_slip k iq (rotor_flux_ self') in
  time_step clock timestamp (last_timestamp_ self) = F32.zero /\
  (F32.lit_0_1 / F32.zero)%f32 = S754_infinity false /\
  (F32.is_finite (k * (id - rotor_flux_ self))%f32 = true ->
   rotor_flux_ self' = rotor_flux_ self \/
   (rotor_flux_ self = S754_zero true /\ rotor_flux_ self' = S754_zero false)) /\
  (F32.is_finite q = true ->
   slip_vel_ self' = q /\
   stator_phase_vel_ self' = (rotor_phase_vel + q)%f32) /\
  phase_offset_ self' = wrap (phase_offset_ self + slip_vel_ self' * F32.zero)%f32 /\
  stator_phase_ self' = wrap (rotor_phase + phase_offset_ self')%f32.
Proof.
  intros Hact timestamp self' k q. subst timestamp self' k q.
  rewrite update_integrate by exact Hact. cbn.
  rewrite time_step_duplicate.
  split; [reflexivity |]. split; [reflexivity |].
  split; [apply flux_step_zero_step |].
  split; [| split; reflexivity].
  intros Hq. rewrite clamp_slip_zero_step.
  destruct (raw_slip _ _ _); try discriminate Hq; split; reflexivity.
Qed.

End Slip.

(** C3 as stated fails. Two calls at the same tick, all inputs present:
    the first bootstraps and leaves [rotor_flux = 0]; in the second
    [dt = 0], the quotient [50 * (5 / 0)] is plus infinity, which is not
    finite, and yet it is what [slip_vel] receives, not 0. ([slip_vel]
    does not pass through [wrap_pm_pi].) *)
Lemma slip_vel_infinite_on_duplicate_tick :
  let self' := update Example.clock wrap_pm_pi_model Example.booted Example.ports 0 in
  let q := raw_slip (slip_velocity (config_ Example.booted)) (Example.f 5)
             (rotor_flux_ self') in
  Example.ports = present F32.zero (Example.f 100) (Example.f 10) (Example.f 5) /\
  active_ Example.booted = true /\
  F32.is_finite q = false /\
  slip_vel_ self' = S754_infinity false /\
  slip_vel_ self' <> F32.zero.
Proof.
  vm_compute. repeat split; discriminate.
Qed.

(** C10 as stated fails. A duplicate tick with a d-axis current so large
    that [50 * (id - 0)] overflows to infinity: the Euler increment is
    infinity times 0, a NaN, and [rotor_flux] goes from 0 to NaN.
    ([rotor_flux] does not pass through [wrap_pm_pi].) *)
Lemma rotor_flux_lost_on_duplicate_tick :
  let ports := present F32.zero (Example.f 100) Example.max_float (Example.f 5) in
  let self' := update Example.clock wrap_pm_pi_model Example.booted ports 0 in
  active_ Example.booted = true /\
  last_timestamp_ Example.booted = 0 /\
  rotor_flux_ Example.booted = F32.zero /\
  rotor_flux_ self' = S754_nan /\
  rotor_flux_ self' <> rotor_flux_ Example.booted.
Proof.
  vm_compute. repeat split; discriminate.
Qed.

(** ** The rotor-flux lag *)

(** The Euler step of lines 51-52 rounds four times: the difference
    [id - rotor_flux], its product with [slip_gain], the product with
    [dt], and the sum. What follows bounds each rounding: a result of
    rounding to nearest even never passes a binary32 that the exact value
    does not pass, every binary32 is a multiple of 2^-149, and a rounded
    product exceeds the exact one by at most one part in 2^24, or by half
    of 2^-149. *)

Module Rounding.

Import F32.

(** ** Shifting and rounding an exact mantissa *)

Lemma iter_pos_Pos_iter {A} (f : A -> A) p x : iter_pos f p x = Pos.iter f x p.
Proof.
  revert x. induction p as [p IH | p IH |]; intros x; cbn.
  - rewrite !IH, !Pos.iter_swap. reflexivity.
  - rewrite !IH. reflexivity.
  - reflexivity.
Qed.

Lemma shr_1_spec rec :
  0 <= shr_m rec ->
  shr_m (shr_1 rec) = shr_m rec / 2 /\
  shr_r (shr_1 rec) = Z.odd (shr_m rec).
Proof.
  destruct rec as [m r s]. cbn [shr_m]. intros Hm.
  rewrite <- Z.div2_div.
  destruct m as [| [p | p |] | p]; try lia; cbn; split; reflexivity.
Qed.

Lemma shifted_step m0 k rec :
  0 <= m0 -> shifted m0 k rec -> shifted m0 (S k) (shr_1 rec).
Proof.
  intros Hm0 [Hm Hr].
  assert (Hpow : 0 < 2 ^ Z.of_nat k) by (apply Z.pow_pos_nonneg; lia).
  assert (Hrec : 0 <= shr_m rec) by (rewrite Hm; apply Z.div_pos; lia).
  destruct (shr_1_spec rec Hrec) as [Hm' Hr'].
  unfold shifted.
  replace (Z.of_nat (S k)) with (Z.of_nat k + 1) by lia.
  rewrite Z.pow_add_r, Z.pow_1_r by lia.
  split.
  - rewrite Hm', Hm, Z.div_div by lia. reflexivity.
  - rewrite Hr', Hm. intros Hodd.
    rewrite Z.rem_mul_r by lia.
    assert (Hbit : (m0 / 2 ^ Z.of_nat k) mod 2 = 1)
      by (rewrite <- Z.bit0_mod, Z.bit0_odd, Hodd; reflexivity).
    pose proof (Z.mod_pos_bound m0 (2 ^ Z.of_nat k) Hpow). nia.
Qed.

Lemma shifted_iter m0 k :
  0 <= m0 ->
  shifted m0 k (Nat.iter k shr_1 (Build_shr_record m0 false false)).
Proof.
  intros Hm0. induction k as [| k IH].
  - split; cbn [Nat.iter shr_m shr_r].
    + rewrite Z.pow_0_r, Z.div_1_r. reflexivity.
    + discriminate.
  - cbn [Nat.iter]. apply shifted_step; assumption.
Qed.

Lemma shr_exact_spec m0 e n :
  0 <= m0 -> 0 < n ->
  let '(rec, e') := shr (Build_shr_record m0 false false) e n in
  e' = e + n /\
  shr_m rec = m0 / 2 ^ n /\
  (shr_r rec = true -> 2 ^ n <= 2 * (m0 mod 2 ^ n)).
Proof.
  intros Hm0 Hn. destruct n as [| p | p]; try lia. cbn [shr].
  rewrite iter_pos_Pos_iter, Pos2Nat.inj_iter.
  destruct (shifted_iter m0 (Pos.to_nat p) Hm0) as [H1 H2].
  rewrite positive_nat_Z in H1, H2.
  change (nat_rect (fun _ => shr_record) (Build_shr_record m0 false false)
            (fun _ => shr_1) (Pos.to_nat p))
    with (Nat.iter (Pos.to_nat p) shr_1 (Build_shr_record m0 false false)).
  repeat split; assumption.
Qed.

Lemma round_nearest_even_spec rec :
  let m := shr_m rec in
  let m' := round_nearest_even m (loc_of_shr_record rec) in
  m <= m' <= m + 1 /\ (shr_r rec = false -> m' = m).
Proof.
  destruct rec as [m [] []]; cbn; try (split; [lia | try discriminate; reflexivity]).
  destruct (Z.even m); split; try lia; discriminate.
Qed.

Lemma fexp_fexp32 e : fexp prec emax e = fexp32 e.
Proof. reflexivity. Qed.

Lemma digits2_pos_bounds m :
  2 ^ (Z.pos (digits2_pos m) - 1) <= Z.pos m < 2 ^ Z.pos (digits2_pos m).
Proof.
  induction m as [m IH | m IH |]; cbn [digits2_pos].
  - rewrite Pos2Z.inj_succ, Pos2Z.inj_xI.
    replace (Z.succ (Z.pos (digits2_pos m)) - 1)
      with (Z.pos (digits2_pos m) - 1 + 1) by lia.
    rewrite Z.pow_succ_r, Z.pow_add_r, Z.pow_1_r by lia.
    set (a := 2 ^ (Z.pos (digits2_pos m) - 1)) in *.
    set (b := 2 ^ Z.pos (digits2_pos m)) in *. lia.
  - rewrite Pos2Z.inj_succ. change (Z.pos m~0) with (2 * Z.pos m).
    replace (Z.succ (Z.pos (digits2_pos m)) - 1)
      with (Z.pos (digits2_pos m) - 1 + 1) by lia.
    rewrite Z.pow_succ_r, Z.pow_add_r, Z.pow_1_r by lia.
    set (a := 2 ^ (Z.pos (digits2_pos m) - 1)) in *.
    set (b := 2 ^ Z.pos (digits2_pos m)) in *. lia.
  - split; [discriminate | reflexivity].
Qed.

Lemma digits2_pos_le m k :
  0 <= k -> Z.pos m < 2 ^ k -> Z.pos (digits2_pos m) <= k.
Proof.
  intros Hk Hm. pose proof (digits2_pos_bounds m) as [Hlo _].
  assert (H : 2 ^ (Z.pos (digits2_pos m) - 1) < 2 ^ k) by lia.
  apply Z.pow_lt_mono_r_iff in H; lia.
Qed.

(** The result of rounding an exact positive mantissa that needs no
    shift. *)
Lemma bra_exact_noshift s mx ex :
  fexp32 (Z.pos (digits2_pos mx) + ex) - ex <= 0 ->
  binary_round_aux prec emax s (Z.pos mx) ex loc_Exact =
  if ex <=? 104 then S754_finite s mx ex else S754_infinity s.
Proof.
  intros Hn. unfold binary_round_aux, shr_fexp.
  cbn [Zdigits2 shr_record_of_loc]. rewrite fexp_fexp32.
  assert (Hshr : forall rec, shr rec ex (fexp32 (Z.pos (digits2_pos mx) + ex) - ex)
                             = (rec, ex)).
  { intros rec. destruct (fexp32 _ - ex); try lia; reflexivity. }
  rewrite Hshr. cbn [shr_m loc_of_shr_record round_nearest_even Zdigits2
                     shr_record_of_loc].
  rewrite fexp_fexp32, Hshr. reflexivity.
Qed.

(** The result of rounding an exact positive mantissa that is shifted
    right by [n > 0] places. *)
Lemma bra_exact_shift s mx ex :
  let E := fexp32 (Z.pos (digits2_pos mx) + ex) in
  let n := E - ex in
  0 < n ->
  exists m2,
    let m1 := Z.pos mx / 2 ^ n in
    (m1 <= m2 <= m1 + 1) /\
    (Z.pos mx mod 2 ^ n = 0 -> m2 = m1) /\
    (m2 = m1 + 1 -> 2 ^ n <= 2 * (Z.pos mx mod 2 ^ n)) /\
    m2 <= 2 ^ 24 /\
    binary_round_aux prec emax s (Z.pos mx) ex loc_Exact =
    if m2 =? 0 then S754_zero s
    else if m2 =? 2 ^ 24
         then (if E + 1 <=? 104 then S754_finite s (2 ^ 23) (E + 1)
               else S754_infinity s)
         else (if E <=? 104 then S754_finite s (Z.to_pos m2) E
               else S754_infinity s).
Proof.
  intros E n Hn.
  assert (HE : -149 <= E) by (unfold E, fexp32; lia).
  pose proof (digits2_pos_bounds mx) as [_ Hd].
  assert (Hpow : 0 < 2 ^ n) by (apply Z.pow_pos_nonneg; lia).
  unfold binary_round_aux, shr_fexp.
  cbn [Zdigits2 shr_record_of_loc]. rewrite fexp_fexp32. fold E. fold n.
  pose proof (shr_exact_spec (Z.pos mx) ex n ltac:(lia) Hn) as Hshr.
  destruct (shr (Build_shr_record (Z.pos mx) false false) ex n) as [rec e'].
  destruct Hshr as (He' & Hm1 & Hr1).
  pose proof (round_nearest_even_spec rec) as [Hrne Hrne0]. cbv zeta in Hrne, Hrne0.
  set (m2 := round_nearest_even (shr_m rec) (loc_of_shr_record rec)) in *.
  rewrite Hm1 in Hrne, Hrne0.
  assert (Hm1pos : 0 <= Z.pos mx / 2 ^ n) by (apply Z.div_pos; lia).
  assert (Hm1lt : Z.pos mx / 2 ^ n < 2 ^ 24).
  { apply Z.div_lt_upper_bound; [lia |].
    rewrite <- Z.pow_add_r by lia.
    apply Z.lt_le_trans with (1 := Hd).
    apply Z.pow_le_mono_r; [lia |]. unfold n, E, fexp32. lia. }
  exists m2. cbv zeta.
  split; [exact Hrne |].
  split.
  { intros Hmod. apply Hrne0.
    destruct (shr_r rec) eqn:Hr; [| reflexivity].
    specialize (Hr1 eq_refl). lia. }
  split.
  { intros Hup. apply Hr1.
    destruct (shr_r rec) eqn:Hr; [reflexivity |].
    specialize (Hrne0 eq_refl). lia. }
  split; [lia |].
  replace e' with E by lia.
  destruct (Z.eqb_spec m2 0) as [H0 | H0].
  - rewrite H0. cbn [Zdigits2 shr_record_of_loc]. rewrite fexp_fexp32.
    assert (Hn2 : fexp32 (0 + E) - E <= 0) by (unfold fexp32; lia).
    destruct (fexp32 (0 + E) - E) eqn:Hn2e; try lia; reflexivity.
  - destruct (Z.eqb_spec m2 (2 ^ 24)) as [H24 | H24].
    + rewrite H24. cbn [Zdigits2 shr_record_of_loc].
      change (Z.pos (digits2_pos (Z.to_pos (2 ^ 24)))) with 25.
      change (2 ^ 24) with (Z.pos (Z.to_pos (2 ^ 24))).
      cbn [Zdigits2].
      change (Z.pos (digits2_pos (Z.to_pos (2 ^ 24)))) with 25.
      rewrite fexp_fexp32.
      replace (fexp32 (25 + E) - E) with 1 by (unfold fexp32; lia).
      reflexivity.
    + assert (Hm2 : 0 < m2 < 2 ^ 24) by lia.
      destruct m2 as [| p2 | p2] eqn:Hm2e; try lia.
      cbn [Zdigits2 shr_record_of_loc]. rewrite fexp_fexp32.
      assert (Hd2 : Z.pos (digits2_pos p2) <= 24)
        by (apply digits2_pos_le; lia).
      assert (Hn2 : fexp32 (Z.pos (digits2_pos p2) + E) - E <= 0)
        by (unfold fexp32; lia).
      destruct (fexp32 (Z.pos (digits2_pos p2) + E) - E) eqn:Hn2e; try lia;
        reflexivity.
Qed.

(** ** Rational values *)

Lemma pow2_pos e : (0 < pow2 e)%Q.
Proof. apply Qpower_0_lt. reflexivity. Qed.

Lemma pow2_add a b : (pow2 (a + b) == pow2 a * pow2 b)%Q.
Proof. apply Qpower_plus. discriminate. Qed.

Lemma pow2_Z n : 0 <= n -> (inject_Z (2 ^ n) == pow2 n)%Q.
Proof. intros Hn. apply Zpower_Qpower. exact Hn. Qed.

Lemma pow2_le a b : a <= b -> (pow2 a <= pow2 b)%Q.
Proof.
  intros Hab. replace b with (a + (b - a)) by lia.
  rewrite pow2_add, <- (pow2_Z (b - a)) by lia.
  rewrite <- (Qmult_1_r (pow2 a)) at 1.
  apply Qmult_le_l; [apply pow2_pos |].
  change 1%Q with (inject_Z 1). rewrite <- Zle_Qle.
  pose proof (Z.pow_pos_nonneg 2 (b - a)). lia.
Qed.

Lemma pow2_lt a b : a < b -> (pow2 a < pow2 b)%Q.
Proof.
  intros Hab. replace b with (a + (b - a)) by lia.
  rewrite pow2_add, <- (pow2_Z (b - a)) by lia.
  rewrite <- (Qmult_1_r (pow2 a)) at 1.
  apply Qmult_lt_l; [apply pow2_pos |].
  change 1%Q with (inject_Z 1). rewrite <- Zlt_Qlt.
  assert (2 ^ 1 <= 2 ^ (b - a)) by (apply Z.pow_le_mono_r; lia). lia.
Qed.

Lemma pow2_lt_inv a b : (pow2 a < pow2 b)%Q -> a < b.
Proof.
  intros H. destruct (Z_lt_le_dec a b) as [Hlt | Hle]; [exact Hlt |].
  apply pow2_le in Hle. lra.
Qed.

Lemma val_shift m e k : 0 <= k -> (val (m * 2 ^ k) e == val m (e + k))%Q.
Proof.
  intros Hk. unfold val. rewrite inject_Z_mult, (pow2_Z k Hk), pow2_add. ring.
Qed.

Lemma val_le m m' e : m <= m' <-> (val m e <= val m' e)%Q.
Proof.
  unfold val. rewrite Qmult_le_r by apply pow2_pos.
  rewrite <- Zle_Qle. reflexivity.
Qed.

Lemma val_lt m m' e : m < m' <-> (val m e < val m' e)%Q.
Proof.
  unfold val. rewrite Qmult_lt_r by apply pow2_pos.
  rewrite <- Zlt_Qlt. reflexivity.
Qed.

Lemma val_0 e : (val 0 e == 0)%Q.
Proof. unfold val. ring. Qed.

Lemma val_opp m e : (val (- m) e == - val m e)%Q.
Proof. unfold val. rewrite inject_Z_opp. ring. Qed.

Lemma val_mult m1 e1 m2 e2 :
  (val (m1 * m2) (e1 + e2) == val m1 e1 * val m2 e2)%Q.
Proof. unfold val. rewrite inject_Z_mult, pow2_add. ring. Qed.

Lemma val_plus m1 m2 e : (val (m1 + m2) e == val m1 e + val m2 e)%Q.
Proof. unfold val. rewrite inject_Z_plus. ring. Qed.

Lemma to_Q_finite s m e :
  (to_Q (S754_finite s m e) == val (cond_Zopp s (Z.pos m)) e)%Q.
Proof.
  unfold to_Q, val, pow2.
  assert (Hn : (if s then Z.neg m else Z.pos m) = cond_Zopp s (Z.pos m))
    by (destruct s; reflexivity).
  rewrite Hn. set (n := cond_Zopp s (Z.pos m)).
  destruct e as [| p | p].
  - cbn. ring.
  - rewrite inject_Z_mult. apply Qmult_comp; [reflexivity |].
    rewrite Z.pow_pos_fold. apply Zpower_Qpower. lia.
  - change (Z.neg p) with (- Z.pos p). rewrite Qpower_opp.
    rewrite (Qmake_Qdiv n (2 ^ p)). unfold Qdiv.
    apply Qmult_comp; [reflexivity |]. apply Qinv_comp.
    rewrite Pos2Z.inj_pow. apply Zpower_Qpower. lia.
Qed.

Lemma to_Q_zero s : (to_Q (S754_zero s) == 0)%Q.
Proof. reflexivity. Qed.

(** Digits and magnitude. *)
Lemma val_digits_bounds m e :
  (pow2 (Z.pos (digits2_pos m) - 1 + e) <= val (Z.pos m) e
   /\ val (Z.pos m) e < pow2 (Z.pos (digits2_pos m) + e))%Q.
Proof.
  pose proof (digits2_pos_bounds m) as [Hlo Hhi].
  unfold val. rewrite !pow2_add. split.
  - apply Qmult_le_compat_r; [| apply Qlt_le_weak, pow2_pos].
    rewrite <- (pow2_Z (Z.pos (digits2_pos m) - 1)) by lia.
    rewrite <- Zle_Qle. exact Hlo.
  - apply Qmult_lt_compat_r; [apply pow2_pos |].
    rewrite <- (pow2_Z (Z.pos (digits2_pos m))) by lia.
    rewrite <- Zlt_Qlt. exact Hhi.
Qed.

(** ** The error of one rounding *)

Lemma on_grid_eq q q' : (q == q')%Q -> on_grid q -> on_grid q'.
Proof. intros Heq [j Hj]. exists j. rewrite <- Heq. exact Hj. Qed.

Lemma on_grid_val m e : -149 <= e -> on_grid (val m e).
Proof.
  intros He. exists (m * 2 ^ (e + 149)).
  rewrite val_shift by lia. replace (-149 + (e + 149)) with e by lia.
  reflexivity.
Qed.

(** What rounding an exact positive value [mx * 2^ex] gives when the
    result is finite. *)
Lemma bra_bounds mx ex :
  let r := binary_round_aux prec emax false (Z.pos mx) ex loc_Exact in
  let x := val (Z.pos mx) ex in
  let mag := Z.pos (digits2_pos mx) + ex in
  is_finite r = true ->
  sign_clear r = true /\
  (0 <= to_Q r)%Q /\
  (to_Q r <= 2 * x)%Q /\
  (to_Q r <= x + x * u24 + half_eta)%Q /\
  (-149 <= mag - 24 -> (to_Q r <= x + x * u24)%Q) /\
  on_grid (to_Q r).
Proof.
  intros r x mag Hfin.
  assert (Hx : (0 < x)%Q).
  { unfold x, val. apply Qmult_lt_0_compat; [| apply pow2_pos].
    change 0%Q with (inject_Z 0). rewrite <- Zlt_Qlt. lia. }
  assert (Hu : (0 < u24)%Q) by apply pow2_pos.
  assert (Hh : (0 < half_eta)%Q) by apply pow2_pos.
  set (E := fexp32 mag). set (n := E - ex).
  destruct (Z_le_gt_dec n 0) as [Hn | Hn].
  - (* no shift: the value is exact *)
    pose proof (bra_exact_noshift false mx ex Hn) as Hr. fold r in Hr.
    destruct (ex <=? 104); rewrite Hr in Hfin |- *; [| discriminate Hfin].
    assert (Hv : (to_Q (S754_finite false mx ex) == x)%Q)
      by (rewrite to_Q_finite; reflexivity).
    assert (Hxu : (0 <= x * u24)%Q) by (apply Qmult_le_0_compat; lra).
    split; [reflexivity |].
    split; [rewrite Hv; lra |]. split; [rewrite Hv; lra |].
    split; [rewrite Hv; lra |]. split; [intros _; rewrite Hv; lra |].
    apply (on_grid_eq x); [symmetry; exact Hv |].
    apply on_grid_val. unfold n, E, fexp32 in Hn. lia.
  - pose proof (bra_exact_shift false mx ex ltac:(fold mag; fold E; fold n; lia))
      as (m2 & Hm2 & Hexact & Hup & Hm2max & Hr).
    fold mag in Hm2, Hexact, Hup, Hr. fold E in Hm2, Hexact, Hup, Hr.
    fold n in Hm2, Hexact, Hup. fold r in Hr. cbv zeta in Hm2, Hexact, Hup.
    set (m1 := Z.pos mx / 2 ^ n) in *.
    set (r0 := Z.pos mx mod 2 ^ n) in *.
    assert (Hpow : 0 < 2 ^ n) by (apply Z.pow_pos_nonneg; lia).
    assert (Hdiv : Z.pos mx = 2 ^ n * m1 + r0) by (apply Z.div_mod; lia).
    assert (Hr0 : 0 <= r0 < 2 ^ n) by (apply Z.mod_pos_bound; lia).
    assert (Hm1 : 0 <= m1) by (apply Z.div_pos; lia).
    assert (HE : -149 <= E) by (unfold E, fexp32; lia).
    (* x = m1 * 2^E + r0 * 2^ex *)
    assert (Hxsplit : (x == val m1 E + val r0 ex)%Q).
    { unfold x. rewrite Hdiv, val_plus.
      replace (2 ^ n * m1) with (m1 * 2 ^ n) by lia.
      rewrite val_shift by lia. replace (ex + n) with E by (unfold n; lia).
      reflexivity. }
    assert (HpowE : (pow2 E == val (2 ^ n) ex)%Q).
    { replace (2 ^ n) with (1 * 2 ^ n) by lia. rewrite val_shift by lia.
      replace (ex + n) with E by (unfold n; lia). unfold val. ring. }
    assert (Hvm1 : (0 <= val m1 E)%Q).
    { rewrite <- (val_0 E). apply val_le. exact Hm1. }
    assert (Hvr0 : (0 <= val r0 ex < pow2 E)%Q).
    { split.
      - rewrite <- (val_0 ex). apply val_le. lia.
      - rewrite HpowE. apply val_lt. lia. }
    (* the value of the result *)
    assert (Hval : (to_Q r == val m2 E)%Q /\ sign_clear r = true).
    { destruct (Z.eqb_spec m2 0) as [H0 | H0].
      - rewrite Hr, H0. split; [rewrite val_0; reflexivity | reflexivity].
      - destruct (Z.eqb_spec m2 (2 ^ 24)) as [H24 | H24].
        + destruct (E + 1 <=? 104); rewrite Hr in Hfin |- *;
            [| discriminate Hfin].
          split; [| reflexivity].
          rewrite to_Q_finite, H24. cbn [cond_Zopp].
          change (Z.pos (2 ^ 23)) with (2 ^ 23).
          replace (2 ^ 24) with (2 ^ 23 * 2 ^ 1) by reflexivity.
          rewrite val_shift by lia. reflexivity.
        + destruct (E <=? 104); rewrite Hr in Hfin |- *;
            [| discriminate Hfin].
          split; [| reflexivity].
          rewrite to_Q_finite. cbn [cond_Zopp].
          rewrite Z2Pos.id by lia. reflexivity. }
    destruct Hval as [Hval Hsign].
    (* the rounded mantissa against the exact value *)
    assert (Hv_up : (val m2 E <= val m1 E + pow2 E)%Q).
    { apply Qle_trans with (val (m1 + 1) E).
      - apply val_le. lia.
      - rewrite val_plus. unfold val at 2. rewrite Qmult_1_l. lra. }
    assert (Hv_half : (val m2 E <= x + pow2 E * (1 # 2))%Q).
    { destruct (Z.eq_dec m2 (m1 + 1)) as [Hup1 | Hnup].
      - specialize (Hup Hup1).
        assert (Hhalf : (pow2 E <= 2 * val r0 ex)%Q).
        { rewrite HpowE. change 2%Q with (inject_Z 2).
          unfold val. rewrite Qmult_assoc, <- inject_Z_mult.
          apply Qmult_le_compat_r; [| apply Qlt_le_weak, pow2_pos].
          rewrite <- Zle_Qle. lia. }
        rewrite Hxsplit. lra.
      - assert (Hle : (val m2 E <= val m1 E)%Q) by (apply val_le; lia).
        rewrite Hxsplit. pose proof (pow2_pos E). lra. }
    assert (Hhalf_E : (pow2 E * (1 # 2) <= x * u24 + half_eta)%Q).
    { assert (Hxu : (0 <= x * u24)%Q) by (apply Qmult_le_0_compat; lra).
      unfold E, fexp32. destruct (Z.max_spec (mag - 24) (-149)) as [[_ ->] | [_ ->]].
      - change (pow2 (-149) * (1 # 2))%Q with half_eta. unfold half_eta.
        change (pow2 (-149) * (1 # 2) <= x * u24 + pow2 (-150))%Q.
        assert (Heq : (pow2 (-149) * (1 # 2) == pow2 (-150))%Q) by reflexivity.
        rewrite Heq. lra.
      - pose proof (val_digits_bounds mx ex) as [Hlo _]. fold x in Hlo.
        replace (mag - 24) with ((Z.pos (digits2_pos mx) - 1 + ex) + (-23))
          by (unfold mag; lia).
        rewrite pow2_add.
        assert (Heq : (pow2 (-23) * (1 # 2) == u24)%Q) by reflexivity.
        rewrite <- Qmult_assoc, Heq.
        assert (Hmono : (pow2 (Z.pos (digits2_pos mx) - 1 + ex) * u24 <= x * u24)%Q)
          by (apply Qmult_le_compat_r; lra).
        lra. }
    assert (Hhalf_E' : -149 <= mag - 24 -> (pow2 E * (1 # 2) <= x * u24)%Q).
    { intros Hnorm. unfold E, fexp32. rewrite Z.max_l by lia.
      pose proof (val_digits_bounds mx ex) as [Hlo _]. fold x in Hlo.
      replace (mag - 24) with ((Z.pos (digits2_pos mx) - 1 + ex) + (-23))
        by (unfold mag; lia).
      rewrite pow2_add.
      assert (Heq : (pow2 (-23) * (1 # 2) == u24)%Q) by reflexivity.
      rewrite <- Qmult_assoc, Heq.
      apply Qmult_le_compat_r; lra. }
    split; [exact Hsign |].
    split. { rewrite Hval, <- (val_0 E). apply val_le. lia. }
    split.
    { rewrite Hval. destruct (Z.eq_dec m2 (m1 + 1)) as [Hup1 | Hnup].
      - specialize (Hup Hup1).
        assert (Hhalf : (pow2 E <= 2 * val r0 ex)%Q).
        { rewrite HpowE. change 2%Q with (inject_Z 2).
          unfold val. rewrite Qmult_assoc, <- inject_Z_mult.
          apply Qmult_le_compat_r; [| apply Qlt_le_weak, pow2_pos].
          rewrite <- Zle_Qle. lia. }
        rewrite Hxsplit. lra.
      - assert (Hle : (val m2 E <= val m1 E)%Q) by (apply val_le; lia).
        rewrite Hxsplit. lra. }
    split; [rewrite Hval; lra |].
    split. { intros Hnorm. specialize (Hhalf_E' Hnorm). rewrite Hval. lra. }
    apply (on_grid_eq (val m2 E)); [symmetry; exact Hval |].
    apply on_grid_val. exact HE.
Qed.

(** ** Shifting a mantissa left *)

Lemma iter_xO_spec m (k : nat) :
  Z.pos (Nat.iter k xO m) = Z.pos m * 2 ^ Z.of_nat k /\
  Z.pos (digits2_pos (Nat.iter k xO m)) = Z.pos (digits2_pos m) + Z.of_nat k.
Proof.
  induction k as [| k [IH1 IH2]].
  - change (Nat.iter 0 xO m) with m. change (Z.of_nat 0) with 0.
    rewrite Z.pow_0_r. lia.
  - change (Nat.iter (S k) xO m) with (xO (Nat.iter k xO m)).
    cbn [digits2_pos].
    change (Z.pos (Nat.iter k xO m)~0) with (2 * Z.pos (Nat.iter k xO m)).
    rewrite Pos2Z.inj_succ, IH1, IH2.
    replace (Z.of_nat (S k)) with (Z.of_nat k + 1) by lia.
    rewrite Z.pow_add_r, Z.pow_1_r by lia. lia.
Qed.

Lemma shl_align_spec mx ex ex' :
  let '(mz, ez) := shl_align mx ex ex' in
  ez = Z.min ex ex' /\
  Z.pos mz = Z.pos mx * 2 ^ (ex - ez) /\
  Z.pos (digits2_pos mz) + ez = Z.pos (digits2_pos mx) + ex.
Proof.
  unfold shl_align. destruct (ex' - ex) as [| d | d] eqn:Hd.
  - replace (Z.min ex ex') with ex by lia.
    rewrite Z.sub_diag, Z.pow_0_r. lia.
  - replace (Z.min ex ex') with ex by lia.
    rewrite Z.sub_diag, Z.pow_0_r. lia.
  - replace (Z.min ex ex') with ex' by lia.
    rewrite Pos2Nat.inj_iter.
    change (nat_rect (fun _ => positive) mx (fun _ => xO) (Pos.to_nat d))
      with (Nat.iter (Pos.to_nat d) xO mx).
    destruct (iter_xO_spec mx (Pos.to_nat d)) as [H1 H2].
    rewrite positive_nat_Z in H1, H2.
    replace (ex - ex') with (Z.pos d) by lia. lia.
Qed.

Lemma shl_align_fst mx ex ez :
  ez <= ex -> Z.pos (fst (shl_align mx ex ez)) = Z.pos mx * 2 ^ (ex - ez).
Proof.
  intros Hle. pose proof (shl_align_spec mx ex ez) as H.
  destruct (shl_align mx ex ez) as [mz ez']. cbn [fst].
  destruct H as (Hez & Hmz & _). rewrite Hmz, Hez.
  replace (Z.min ex ez) with ez by lia. reflexivity.
Qed.

(** ** The sign given to the rounding *)

Lemma bra_opp s m e l :
  binary_round_aux prec emax (negb s) m e l =
  opp (binary_round_aux prec emax s m e l).
Proof.
  unfold binary_round_aux.
  destruct (shr_fexp prec emax m e l) as [mrs' e'].
  destruct (shr_fexp prec emax _ e' loc_Exact) as [mrs'' e''].
  destruct (shr_m mrs''); try reflexivity.
  destruct (e'' <=? emax - prec); reflexivity.
Qed.

Lemma binary_round_opp s m e :
  binary_round prec emax (negb s) m e = opp (binary_round prec emax s m e).
Proof.
  unfold binary_round. destruct (shl_align m e _) as [mz ez]. apply bra_opp.
Qed.

Lemma to_Q_opp x : (to_Q (opp x) == - to_Q x)%Q.
Proof.
  destruct x as [s | s | | s m e]; try reflexivity.
  unfold opp, SFopp. rewrite !to_Q_finite.
  destruct s; cbn [negb cond_Zopp]; rewrite <- val_opp; reflexivity.
Qed.

Lemma is_finite_opp x : is_finite (opp x) = is_finite x.
Proof. destruct x; reflexivity. Qed.

(** ** Rounding an exact value with [binary_round] *)

Lemma binary_round_bounds mx ex :
  let r := binary_round prec emax false mx ex in
  let x := val (Z.pos mx) ex in
  is_finite r = true ->
  sign_clear r = true /\
  (0 <= to_Q r)%Q /\
  (to_Q r <= 2 * x)%Q /\
  (-149 <= ex -> (to_Q r <= x + x * u24)%Q) /\
  on_grid (to_Q r).
Proof.
  intros r x Hfin. unfold r, binary_round in *.
  rewrite fexp_fexp32 in *.
  set (mag := Z.pos (digits2_pos mx) + ex) in *.
  pose proof (shl_align_spec mx ex (fexp32 mag)) as Hshl.
  destruct (shl_align mx ex (fexp32 mag)) as [mz ez].
  destruct Hshl as (Hez & Hmz & Hmag).
  assert (Hval : (val (Z.pos mz) ez == x)%Q).
  { unfold x. rewrite Hmz, val_shift by lia.
    replace (ez + (ex - ez)) with ex by lia. reflexivity. }
  pose proof (bra_bounds mz ez Hfin) as (Hs & H0 & H2 & _ & Htight & Hgrid).
  cbv zeta in Htight. rewrite Hmag in Htight. fold mag in Htight.
  rewrite Hval in H2, Htight.
  split; [exact Hs |]. split; [exact H0 |]. split; [exact H2 |].
  split; [| exact Hgrid].
  intros Hex.
  destruct (Z_le_gt_dec (-149) (mag - 24)) as [Hnorm | Hsub].
  - apply Htight. exact Hnorm.
  - (* the exponent is at least that of the subnormals: no shift *)
    assert (Hn : fexp32 (Z.pos (digits2_pos mz) + ez) - ez <= 0).
    { rewrite Hmag. fold mag. unfold fexp32 in *. lia. }
    rewrite (bra_exact_noshift false mz ez Hn) in Hfin |- *.
    destruct (ez <=? 104); [| discriminate Hfin].
    rewrite to_Q_finite. cbn [cond_Zopp]. rewrite Hval.
    assert (Hx : (0 <= x)%Q).
    { unfold x. rewrite <- (val_0 ex). apply val_le. lia. }
    assert (Hxu : (0 <= x * u24)%Q)
      by (apply Qmult_le_0_compat; [exact Hx | apply Qlt_le_weak, pow2_pos]).
    lra.
Qed.

(** ** Rounding to nearest is monotone at representable numbers *)

Lemma bounded_spec m e :
  bounded prec emax m e = true ->
  fexp32 (Z.pos (digits2_pos m) + e) = e /\ e <= 104.
Proof.
  unfold bounded, canonical_mantissa. rewrite fexp_fexp32.
  intros H. apply andb_prop in H. destruct H as [H1 H2].
  apply Z.eqb_eq in H1. apply Z.leb_le in H2.
  split; [exact H1 | exact H2].
Qed.

(** If [x <= y] for positive mantissas then the magnitude of [x] is at
    most that of [y]. *)
Lemma mag_le mx ex my ey :
  (val (Z.pos mx) ex <= val (Z.pos my) ey)%Q ->
  Z.pos (digits2_pos mx) + ex <= Z.pos (digits2_pos my) + ey.
Proof.
  intros Hle.
  pose proof (val_digits_bounds mx ex) as [Hlo _].
  pose proof (val_digits_bounds my ey) as [_ Hhi].
  assert (H : (pow2 (Z.pos (digits2_pos mx) - 1 + ex)
               < pow2 (Z.pos (digits2_pos my) + ey))%Q) by lra.
  apply pow2_lt_inv in H. lia.
Qed.

Lemma fexp32_mono a b : a <= b -> fexp32 a <= fexp32 b.
Proof. unfold fexp32. lia. Qed.

(** Rounding to nearest does not pass a representable number above. *)
Lemma bra_upper mz ez my ey :
  bounded prec emax my ey = true ->
  ez <= fexp32 (Z.pos (digits2_pos mz) + ez) ->
  (val (Z.pos mz) ez <= val (Z.pos my) ey)%Q ->
  let r := binary_round_aux prec emax false (Z.pos mz) ez loc_Exact in
  is_finite r = true /\ (to_Q r <= val (Z.pos my) ey)%Q.
Proof.
  intros Hb Hez Hle r.
  destruct (bounded_spec my ey Hb) as [Hcan Hey].
  pose proof (mag_le mz ez my ey Hle) as Hmag.
  set (mag := Z.pos (digits2_pos mz) + ez) in *.
  set (E := fexp32 mag) in *.
  assert (HEey : E <= ey).
  { rewrite <- Hcan. apply fexp32_mono. exact Hmag. }
  destruct (Z.eq_dec E ez) as [Heq | Hne].
  - (* no shift *)
    assert (Hn : fexp32 (Z.pos (digits2_pos mz) + ez) - ez <= 0)
      by (fold mag; fold E; lia).
    unfold r. rewrite (bra_exact_noshift false mz ez Hn).
    replace (ez <=? 104) with true by (symmetry; apply Z.leb_le; lia).
    split; [reflexivity |]. rewrite to_Q_finite. exact Hle.
  - set (n := E - ez).
    assert (Hn : 0 < n) by (unfold n; lia).
    pose proof (bra_exact_shift false mz ez ltac:(fold mag; fold E; fold n; lia))
      as (m2 & Hm2 & Hexact & _ & Hm2max & Hr).
    fold mag in Hm2, Hexact, Hr. fold E in Hm2, Hexact, Hr.
    fold n in Hm2, Hexact. fold r in Hr. cbv zeta in Hm2, Hexact.
    set (m1 := Z.pos mz / 2 ^ n) in *.
    set (r0 := Z.pos mz mod 2 ^ n) in *.
    assert (Hpow : 0 < 2 ^ n) by (apply Z.pow_pos_nonneg; lia).
    assert (Hdiv : Z.pos mz = 2 ^ n * m1 + r0) by (apply Z.div_mod; lia).
    assert (Hr0 : 0 <= r0 < 2 ^ n) by (apply Z.mod_pos_bound; lia).
    assert (Hm1 : 0 <= m1) by (apply Z.div_pos; lia).
    (* both values on the grid of 2^E *)
    assert (Hy : (val (Z.pos my) ey == val (Z.pos my * 2 ^ (ey - E)) E)%Q).
    { rewrite val_shift by lia. replace (E + (ey - E)) with ey by lia.
      reflexivity. }
    set (Y := Z.pos my * 2 ^ (ey - E)) in *.
    assert (Hxscaled : (val (Z.pos mz) ez
                        == val (m1 * 2 ^ n + r0) ez)%Q)
      by (rewrite Hdiv; replace (2 ^ n * m1 + r0) with (m1 * 2 ^ n + r0) by lia;
          reflexivity).
    assert (Hm2Y : m2 <= Y).
    { destruct (Z.eq_dec r0 0) as [Hr00 | Hr0n].
      - rewrite (Hexact Hr00).
        apply (val_le m1 Y E). rewrite <- Hy.
        apply Qle_trans with (2 := Hle).
        rewrite Hxscaled, Hr00, Z.add_0_r, val_shift by lia.
        replace (ez + n) with E by (unfold n; lia). apply Qle_refl.
      - assert (Hlt : m1 < Y).
        { apply (val_lt m1 Y E). rewrite <- Hy.
          apply Qlt_le_trans with (2 := Hle).
          rewrite Hxscaled, val_plus, val_shift by lia.
          replace (ez + n) with E by (unfold n; lia).
          assert (H0 : (0 < val r0 ez)%Q)
            by (rewrite <- (val_0 ez); apply val_lt; lia).
          lra. }
        lia. }
    assert (Hv : (val m2 E <= val (Z.pos my) ey)%Q)
      by (rewrite Hy; apply val_le; exact Hm2Y).
    rewrite Hr.
    destruct (Z.eqb_spec m2 0) as [H0 | H0].
    + split; [reflexivity |]. rewrite to_Q_zero.
      rewrite <- (val_0 ey). apply val_le. lia.
    + destruct (Z.eqb_spec m2 (2 ^ 24)) as [H24 | H24].
      * (* the carry: 2^24 * 2^E <= y < 2^128 *)
        assert (HE103 : E + 1 <= 104).
        { pose proof (val_digits_bounds my ey) as [_ Hhi].
          assert (Hp : (pow2 (24 + E) < pow2 (Z.pos (digits2_pos my) + ey))%Q).
          { apply Qle_lt_trans with (2 := Hhi).
            apply Qle_trans with (2 := Hv). rewrite H24.
            replace (2 ^ 24) with (1 * 2 ^ 24) by reflexivity.
            rewrite val_shift by lia. unfold val. rewrite Qmult_1_l.
            replace (E + 24) with (24 + E) by lia. apply Qle_refl. }
          apply pow2_lt_inv in Hp. unfold fexp32 in Hcan. lia. }
        replace (E + 1 <=? 104) with true by (symmetry; apply Z.leb_le; lia).
        split; [reflexivity |].
        rewrite to_Q_finite. cbn [cond_Zopp].
        change (Z.pos (2 ^ 23)) with (2 ^ 23).
        rewrite <- val_shift by lia. 
        change (2 ^ 23 * 2 ^ 1) with (2 ^ 24). rewrite <- H24. exact Hv.
      * replace (E <=? 104) with true by (symmetry; apply Z.leb_le; lia).
        split; [reflexivity |].
        rewrite to_Q_finite. cbn [cond_Zopp]. rewrite Z2Pos.id by lia.
        exact Hv.
Qed.

(** Rounding to nearest does not pass a representable number below. *)
Lemma bra_lower mz ez my ey :
  bounded prec emax my ey = true ->
  (val (Z.pos my) ey <= val (Z.pos mz) ez)%Q ->
  let r := binary_round_aux prec emax false (Z.pos mz) ez loc_Exact in
  is_finite r = true -> (val (Z.pos my) ey <= to_Q r)%Q.
Proof.
  intros Hb Hle r Hfin.
  destruct (bounded_spec my ey Hb) as [Hcan Hey].
  pose proof (mag_le my ey mz ez Hle) as Hmag.
  set (magy := Z.pos (digits2_pos my) + ey) in *.
  set (mag := Z.pos (digits2_pos mz) + ez) in *.
  set (E := fexp32 mag) in *.
  assert (HeyE : ey <= E).
  { rewrite <- Hcan. apply fexp32_mono. exact Hmag. }
  destruct (Z_le_gt_dec (E - ez) 0) as [Hn | Hn].
  - unfold r in *. rewrite (bra_exact_noshift false mz ez Hn) in Hfin |- *.
    destruct (ez <=? 104); [| discriminate Hfin].
    rewrite to_Q_finite. exact Hle.
  - set (n := E - ez) in *.
    pose proof (bra_exact_shift false mz ez ltac:(fold mag; fold E; fold n; lia))
      as (m2 & Hm2 & _ & _ & Hm2max & Hr).
    fold mag in Hm2, Hr. fold E in Hm2, Hr.
    fold n in Hm2. fold r in Hr. cbv zeta in Hm2.
    set (m1 := Z.pos mz / 2 ^ n) in *.
    set (r0 := Z.pos mz mod 2 ^ n) in *.
    assert (Hpow : 0 < 2 ^ n) by (apply Z.pow_pos_nonneg; lia).
    assert (Hdiv : Z.pos mz = 2 ^ n * m1 + r0) by (apply Z.div_mod; lia).
    assert (Hr0 : 0 <= r0 < 2 ^ n) by (apply Z.mod_pos_bound; lia).
    assert (Hm1 : 0 <= m1) by (apply Z.div_pos; lia).
    assert (Hx_lt : (val (Z.pos mz) ez < val (m1 + 1) E)%Q).
    { replace E with (ez + n) by (unfold n; lia).
      rewrite <- (val_shift (m1 + 1) ez n) by lia.
      apply val_lt. lia. }
    assert (Hval : (to_Q r == val m2 E)%Q).
    { destruct (Z.eqb_spec m2 0) as [H0 | H0].
      - rewrite Hr, H0, val_0. reflexivity.
      - destruct (Z.eqb_spec m2 (2 ^ 24)) as [H24 | H24].
        + destruct (E + 1 <=? 104); rewrite Hr in Hfin |- *;
            [| discriminate Hfin].
          rewrite to_Q_finite, H24. cbn [cond_Zopp].
          change (Z.pos (2 ^ 23)) with (2 ^ 23).
          replace (2 ^ 24) with (2 ^ 23 * 2 ^ 1) by reflexivity.
          rewrite val_shift by lia. reflexivity.
        + destruct (E <=? 104); rewrite Hr in Hfin |- *;
            [| discriminate Hfin].
          rewrite to_Q_finite. cbn [cond_Zopp].
          rewrite Z2Pos.id by lia. reflexivity. }
    rewrite Hval.
    apply Qle_trans with (val m1 E); [| apply val_le; lia].
    destruct (Z.eq_dec ey E) as [HeqE | HneE].
    + rewrite HeqE in Hle |- *. apply val_le.
      assert (Hlt : (val (Z.pos my) E < val (m1 + 1) E)%Q) by lra.
      apply val_lt in Hlt. lia.
    + (* y lies in a lower binade than x *)
      assert (HE : E = mag - 24) by (unfold E, fexp32 in *; lia).
      assert (Hmagy : magy <= mag - 1).
      { destruct (Z_le_gt_dec magy (mag - 1)) as [H | H]; [exact H |].
        assert (magy = mag) by lia.
        unfold E in HneE. rewrite <- H0 in HneE. fold magy in Hcan. lia. }
      pose proof (val_digits_bounds my ey) as [_ Hyhi]. fold magy in Hyhi.
      pose proof (val_digits_bounds mz ez) as [Hxlo _].
      replace (Z.pos (digits2_pos mz) - 1 + ez) with (mag - 1) in Hxlo
        by (unfold mag; lia).
      assert (Hp : (pow2 (mag - 1) == val (2 ^ 23) E)%Q).
      { replace (2 ^ 23) with (1 * 2 ^ 23) by reflexivity.
        rewrite val_shift by lia. unfold val. rewrite Qmult_1_l.
        replace (E + 23) with (mag - 1) by lia. reflexivity. }
      assert (Hm1big : 2 ^ 23 <= m1).
      { assert (Hlt : (val (2 ^ 23) E < val (m1 + 1) E)%Q)
          by (rewrite <- Hp; lra).
        apply val_lt in Hlt. lia. }
      apply Qle_trans with (val (2 ^ 23) E); [| apply val_le; exact Hm1big].
      rewrite <- Hp. apply Qlt_le_weak.
      apply Qlt_le_trans with (1 := Hyhi). apply pow2_le. exact Hmagy.
Qed.

(** ** Sums between two floats *)

Lemma binary_round_upper mx ex my ey :
  bounded prec emax my ey = true ->
  (val (Z.pos mx) ex <= val (Z.pos my) ey)%Q ->
  let r := binary_round prec emax false mx ex in
  is_finite r = true /\ (to_Q r <= val (Z.pos my) ey)%Q.
Proof.
  intros Hb Hle. unfold binary_round. rewrite fexp_fexp32.
  pose proof (shl_align_spec mx ex (fexp32 (Z.pos (digits2_pos mx) + ex))) as H.
  destruct (shl_align mx ex _) as [mz ez]. destruct H as (Hez & Hmz & Hmag).
  apply bra_upper; [exact Hb | rewrite Hmag; lia |].
  rewrite Hmz, val_shift by lia.
  replace (ez + (ex - ez)) with ex by lia. exact Hle.
Qed.

Lemma binary_round_lower mx ex my ey :
  bounded prec emax my ey = true ->
  (val (Z.pos my) ey <= val (Z.pos mx) ex)%Q ->
  let r := binary_round prec emax false mx ex in
  is_finite r = true -> (val (Z.pos my) ey <= to_Q r)%Q.
Proof.
  intros Hb Hle. unfold binary_round. rewrite fexp_fexp32.
  pose proof (shl_align_spec mx ex (fexp32 (Z.pos (digits2_pos mx) + ex))) as H.
  destruct (shl_align mx ex _) as [mz ez]. destruct H as (Hez & Hmz & Hmag).
  apply bra_lower; [exact Hb |].
  rewrite Hmz, val_shift by lia.
  replace (ez + (ex - ez)) with ex by lia. exact Hle.
Qed.

(** A valid finite float that is positive, zero or negative. *)
Lemma to_Q_pos_inv y :
  is_finite y = true -> (0 < to_Q y)%Q ->
  exists m e, y = S754_finite false m e.
Proof.
  destruct y as [s | s | | [] m e]; try discriminate; intros _ H.
  - rewrite to_Q_finite in H. cbn [cond_Zopp] in H.
    rewrite <- (val_0 e) in H. apply val_lt in H. lia.
  - eauto.
Qed.

Lemma to_Q_neg_inv y :
  is_finite y = true -> (to_Q y < 0)%Q ->
  exists m e, y = S754_finite true m e.
Proof.
  destruct y as [s | s | | [] m e]; try discriminate; intros _ H.
  - eauto.
  - rewrite to_Q_finite in H. cbn [cond_Zopp] in H.
    rewrite <- (val_0 e) in H. apply val_lt in H. lia.
Qed.

(** The exact value [S * 2^ez], rounded, stays between two valid floats
    that enclose it. *)
Lemma binary_normalize_between S ez lo hi :
  is_finite lo = true -> valid_binary prec emax lo = true ->
  is_finite hi = true -> valid_binary prec emax hi = true ->
  (to_Q lo <= val S ez)%Q -> (val S ez <= to_Q hi)%Q ->
  let r := binary_normalize prec emax S ez false in
  is_finite r = true /\ (to_Q lo <= to_Q r)%Q /\ (to_Q r <= to_Q hi)%Q.
Proof.
  intros Hflo Hvlo Hfhi Hvhi Hlo Hhi. unfold binary_normalize.
  destruct S as [| mx | mx].
  - rewrite val_0 in Hlo, Hhi. cbn [to_Q]. repeat split; assumption.
  - (* positive *)
    assert (Hx : (0 < val (Z.pos mx) ez)%Q)
      by (rewrite <- (val_0 ez); apply val_lt; lia).
    destruct (to_Q_pos_inv hi Hfhi ltac:(lra)) as (mh & eh & ->).
    rewrite to_Q_finite in Hhi |- *. cbn [cond_Zopp] in Hhi |- *.
    destruct (binary_round_upper mx ez mh eh Hvhi Hhi) as [Hfin Hup].
    split; [exact Hfin |]. split; [| exact Hup].
    destruct (Qlt_le_dec 0 (to_Q lo)) as [Hpos | Hneg].
    + destruct (to_Q_pos_inv lo Hflo Hpos) as (ml & el & ->).
      rewrite to_Q_finite in Hlo |- *. cbn [cond_Zopp] in Hlo |- *.
      apply binary_round_lower; assumption.
    + destruct (binary_round_bounds mx ez Hfin) as (_ & H0 & _). lra.
  - (* negative *)
    change (Z.neg mx) with (- Z.pos mx) in Hlo, Hhi.
    rewrite val_opp in Hlo, Hhi.
    assert (Hx : (0 < val (Z.pos mx) ez)%Q)
      by (rewrite <- (val_0 ez); apply val_lt; lia).
    change true with (negb false). rewrite binary_round_opp.
    rewrite is_finite_opp, to_Q_opp.
    destruct (to_Q_neg_inv lo Hflo ltac:(lra)) as (ml & el & ->).
    rewrite to_Q_finite in Hlo |- *. cbn [cond_Zopp] in Hlo |- *.
    change (Z.neg ml) with (- Z.pos ml) in Hlo |- *.
    rewrite val_opp in Hlo |- *.
    destruct (binary_round_upper mx ez ml el Hvlo ltac:(lra)) as [Hfin Hup].
    split; [exact Hfin |]. split; [lra |].
    destruct (Qlt_le_dec (to_Q hi) 0) as [Hneg | Hpos].
    + destruct (to_Q_neg_inv hi Hfhi Hneg) as (mh & eh & ->).
      rewrite to_Q_finite in Hhi |- *. cbn [cond_Zopp] in Hhi |- *.
      change (Z.neg mh) with (- Z.pos mh) in Hhi |- *.
      rewrite val_opp in Hhi |- *.
      pose proof (binary_round_lower mx ez mh eh Hvhi ltac:(lra) Hfin). lra.
    + destruct (binary_round_bounds mx ez Hfin) as (_ & H0 & _). lra.
Qed.

(** The exact sum that [SFadd] and [SFsub] round. *)
Lemma aligned_val s m e ez :
  ez <= e ->
  (val (cond_Zopp s (Z.pos (fst (shl_align m e ez)))) ez
   == to_Q (S754_finite s m e))%Q.
Proof.
  intros Hle. rewrite shl_align_fst, to_Q_finite by exact Hle.
  destruct s; cbn [cond_Zopp].
  - rewrite <- Z.mul_opp_l, val_shift by lia.
    replace (ez + (e - ez)) with e by lia. reflexivity.
  - rewrite val_shift by lia.
    replace (ez + (e - ez)) with e by lia. reflexivity.
Qed.

(** The sum of two floats, rounded, stays between any two valid floats
    that enclose the exact sum. *)
Lemma add_between a b lo hi :
  is_finite a = true -> is_finite b = true ->
  is_finite lo = true -> valid_binary prec emax lo = true ->
  is_finite hi = true -> valid_binary prec emax hi = true ->
  (to_Q lo <= to_Q a + to_Q b)%Q -> (to_Q a + to_Q b <= to_Q hi)%Q ->
  is_finite (add a b) = true /\
  (to_Q lo <= to_Q (add a b))%Q /\ (to_Q (add a b) <= to_Q hi)%Q.
Proof.
  intros Hfa Hfb Hflo Hvlo Hfhi Hvhi Hlo Hhi.
  destruct a as [sa | | | sa ma ea]; try discriminate Hfa;
    destruct b as [sb | | | sb mb eb]; try discriminate Hfb.
  - (* zero + zero *)
    cbn [to_Q] in Hlo, Hhi.
    assert (Hz : exists s, add (S754_zero sa) (S754_zero sb) = S754_zero s)
      by (destruct sa, sb; cbn; eauto).
    destruct Hz as [s ->]. cbn [to_Q].
    split; [reflexivity |]. split; lra.
  - (* zero + finite *)
    rewrite (to_Q_zero sa) in Hlo, Hhi.
    change (add (S754_zero sa) (S754_finite sb mb eb))
      with (S754_finite sb mb eb).
    split; [reflexivity |]. split; lra.
  - (* finite + zero *)
    rewrite (to_Q_zero sb) in Hlo, Hhi.
    change (add (S754_finite sa ma ea) (S754_zero sb))
      with (S754_finite sa ma ea).
    split; [reflexivity |]. split; lra.
  - unfold add, SFadd.
    apply binary_normalize_between; try assumption.
    + rewrite val_plus, !aligned_val by lia. exact Hlo.
    + rewrite val_plus, !aligned_val by lia. exact Hhi.
Qed.

Lemma u24_value : (u24 == 1 # 16777216)%Q.
Proof. reflexivity. Qed.

Lemma half_eta_value : (half_eta == 1 # 1427247692705959881058285969449495136382746624)%Q.
Proof. reflexivity. Qed.

Lemma eta_value : (val 1 (-149) == 1 # 713623846352979940529142984724747568191373312)%Q.
Proof. reflexivity. Qed.

(** ** The grid of the smallest subnormal *)

Lemma valid_exponent s m e :
  valid_binary prec emax (S754_finite s m e) = true -> -149 <= e.
Proof.
  intros H. destruct (bounded_spec m e H) as [Hc _]. unfold fexp32 in Hc. lia.
Qed.

Lemma on_grid_valid x :
  is_finite x = true -> valid_binary prec emax x = true -> on_grid (to_Q x).
Proof.
  destruct x as [s | s | | s m e]; try discriminate; intros _ Hv.
  - exists 0. cbn [to_Q]. rewrite val_0. reflexivity.
  - apply (on_grid_eq (val (cond_Zopp s (Z.pos m)) e));
      [symmetry; apply to_Q_finite |].
    apply on_grid_val. apply (valid_exponent s m e Hv).
Qed.

Lemma val_minus i j e : (val (i - j) e == val i e - val j e)%Q.
Proof.
  unfold val, Z.sub. rewrite inject_Z_plus, inject_Z_opp. ring.
Qed.

Lemma on_grid_minus a b : on_grid a -> on_grid b -> on_grid (a - b)%Q.
Proof.
  intros [i Hi] [j Hj]. exists (i - j).
  rewrite Hi, Hj, val_minus. reflexivity.
Qed.

Lemma on_grid_opp a : on_grid a -> on_grid (- a)%Q.
Proof.
  intros [i Hi]. exists (- i). rewrite Hi, val_opp. reflexivity.
Qed.

Lemma on_grid_lt_le a b :
  on_grid a -> on_grid b -> (a < b + val 1 (-149))%Q -> (a <= b)%Q.
Proof.
  intros [i Hi] [j Hj] Hlt. rewrite Hi, Hj in *.
  rewrite <- val_plus in Hlt. apply val_lt in Hlt. apply val_le. lia.
Qed.

Lemma on_grid_pos a : on_grid a -> (0 < a)%Q -> (val 1 (-149) <= a)%Q.
Proof.
  intros [i Hi] Hpos. rewrite Hi in *.
  rewrite <- (val_0 (-149)) in Hpos. apply val_lt in Hpos.
  apply val_le. lia.
Qed.

(** ** Finite results have finite operands *)

Lemma add_finite_inv a b :
  is_finite (add a b) = true -> is_finite a = true /\ is_finite b = true.
Proof.
  destruct a as [[] | [] | | sa ma ea], b as [[] | [] | | sb mb eb];
    cbn; intros H; try discriminate H; split; reflexivity.
Qed.

Lemma sub_finite_inv a b :
  is_finite (sub a b) = true -> is_finite a = true /\ is_finite b = true.
Proof.
  destruct a as [[] | [] | | sa ma ea], b as [[] | [] | | sb mb eb];
    cbn; intros H; try discriminate H; split; reflexivity.
Qed.

Lemma mul_finite_inv a b :
  is_finite (mul a b) = true -> is_finite a = true /\ is_finite b = true.
Proof.
  destruct a as [[] | [] | | sa ma ea], b as [[] | [] | | sb mb eb];
    cbn; intros H; try discriminate H; split; reflexivity.
Qed.

(** ** The sign of a product *)

Lemma mul_opp_r x y : mul x (opp y) = opp (mul x y).
Proof.
  destruct x as [sx | sx | | sx mx ex], y as [sy | sy | | sy my ey];
    try reflexivity;
    try (destruct sx, sy; reflexivity).
  change (mul (S754_finite sx mx ex) (opp (S754_finite sy my ey)))
    with (binary_round_aux prec emax (xorb sx (negb sy))
            (Z.pos (mx * my)) (ex + ey) loc_Exact).
  change (mul (S754_finite sx mx ex) (S754_finite sy my ey))
    with (binary_round_aux prec emax (xorb sx sy)
            (Z.pos (mx * my)) (ex + ey) loc_Exact).
  replace (xorb sx (negb sy)) with (negb (xorb sx sy))
    by (destruct sx, sy; reflexivity).
  apply bra_opp.
Qed.

Lemma mul_opp_l x y : mul (opp x) y = opp (mul x y).
Proof.
  destruct x as [sx | sx | | sx mx ex], y as [sy | sy | | sy my ey];
    try reflexivity;
    try (destruct sx, sy; reflexivity).
  change (mul (opp (S754_finite sx mx ex)) (S754_finite sy my ey))
    with (binary_round_aux prec emax (xorb (negb sx) sy)
            (Z.pos (mx * my)) (ex + ey) loc_Exact).
  change (mul (S754_finite sx mx ex) (S754_finite sy my ey))
    with (binary_round_aux prec emax (xorb sx sy)
            (Z.pos (mx * my)) (ex + ey) loc_Exact).
  replace (xorb (negb sx) sy) with (negb (xorb sx sy))
    by (destruct sx, sy; reflexivity).
  apply bra_opp.
Qed.

Lemma opp_involutive x : opp (opp x) = x.
Proof. destruct x as [[] | [] | | [] m e]; reflexivity. Qed.

(** ** Products of non-negative floats *)

Lemma mul_nonneg x y :
  is_finite (mul x y) = true ->
  (0 <= to_Q x)%Q -> (0 <= to_Q y)%Q ->
  let r := to_Q (mul x y) in
  let q := (to_Q x * to_Q y)%Q in
  (0 <= r)%Q /\ (r <= 2 * q)%Q /\ (r <= q + q * u24 + half_eta)%Q /\
  on_grid r.
Proof.
  intros Hfin Hx Hy r q.
  destruct (mul_finite_inv x y Hfin) as [Hfx Hfy].
  assert (Hq : (0 <= q)%Q) by (apply Qmult_le_0_compat; assumption).
  assert (Hzero : (r == 0)%Q ->
                  (0 <= r)%Q /\ (r <= 2 * q)%Q /\
                  (r <= q + q * u24 + half_eta)%Q /\ on_grid r).
  { intros Hr0. rewrite u24_value, half_eta_value.
    split; [lra |]. split; [lra |]. split; [lra |].
    exists 0. rewrite Hr0, val_0. reflexivity. }
  destruct x as [sx | | | sx mx ex]; try discriminate Hfx;
    destruct y as [sy | | | sy my ey]; try discriminate Hfy;
    try (apply Hzero; reflexivity).
  assert (Hsx : sx = false).
  { destruct sx; [| reflexivity]. rewrite to_Q_finite in Hx.
    cbn [cond_Zopp] in Hx. rewrite <- (val_0 ex) in Hx.
    apply val_le in Hx. lia. }
  assert (Hsy : sy = false).
  { destruct sy; [| reflexivity]. rewrite to_Q_finite in Hy.
    cbn [cond_Zopp] in Hy. rewrite <- (val_0 ey) in Hy.
    apply val_le in Hy. lia. }
  subst sx sy.
  assert (Hqv : (q == val (Z.pos (mx * my)) (ex + ey))%Q).
  { unfold q. rewrite !to_Q_finite. cbn [cond_Zopp].
    rewrite Pos2Z.inj_mul, val_mult. reflexivity. }
  unfold r, mul, SFmul in *. cbn [xorb] in *.
  destruct (bra_bounds (mx * my) (ex + ey) Hfin)
    as (_ & H0 & H2 & Ht & _ & Hg).
  rewrite <- Hqv in H2, Ht.
  repeat split; assumption.
Qed.

(** ** The difference of two valid floats *)

Lemma binary_normalize_bound S ez :
  -149 <= ez ->
  let r := binary_normalize prec emax S ez false in
  let x := val S ez in
  is_finite r = true ->
  (0 <= x -> 0 <= to_Q r /\ to_Q r <= x + x * u24)%Q /\
  (x <= 0 -> x + x * u24 <= to_Q r /\ to_Q r <= 0)%Q.
Proof.
  intros Hez r x Hfin. unfold r, x, binary_normalize in *.
  destruct S as [| m | m].
  - rewrite val_0. cbn [to_Q]. rewrite u24_value. split; intros _; lra.
  - assert (Hx : (0 < val (Z.pos m) ez)%Q)
      by (rewrite <- (val_0 ez); apply val_lt; lia).
    destruct (binary_round_bounds m ez Hfin) as (_ & H0 & _ & Ht & _).
    specialize (Ht Hez). split; intros H; [split; assumption | lra].
  - change (Z.neg m) with (- Z.pos m). rewrite val_opp.
    assert (Hx : (0 < val (Z.pos m) ez)%Q)
      by (rewrite <- (val_0 ez); apply val_lt; lia).
    change true with (negb false) in Hfin |- *.
    rewrite binary_round_opp in Hfin |- *.
    rewrite is_finite_opp in Hfin. rewrite to_Q_opp.
    destruct (binary_round_bounds m ez Hfin) as (_ & H0 & _ & Ht & _).
    specialize (Ht Hez). rewrite u24_value in *.
    split; intros H; [lra | split; lra].
Qed.

Lemma sub_bound a b :
  valid_binary prec emax a = true -> valid_binary prec emax b = true ->
  is_finite (sub a b) = true ->
  let D := (to_Q a - to_Q b)%Q in
  (0 <= D -> 0 <= to_Q (sub a b) /\ to_Q (sub a b) <= D + D * u24)%Q /\
  (D <= 0 -> D + D * u24 <= to_Q (sub a b) /\ to_Q (sub a b) <= 0)%Q.
Proof.
  intros Hva Hvb Hfin D.
  destruct (sub_finite_inv a b Hfin) as [Hfa Hfb].
  destruct a as [sa | | | sa ma ea]; try discriminate Hfa;
    destruct b as [sb | | | sb mb eb]; try discriminate Hfb.
  - assert (Hz : exists s, sub (S754_zero sa) (S754_zero sb) = S754_zero s)
      by (destruct sa, sb; cbn; eauto).
    destruct Hz as [s ->]. unfold D. cbn [to_Q]. rewrite u24_value.
    split; intros _; lra.
  - change (sub (S754_zero sa) (S754_finite sb mb eb))
      with (opp (S754_finite sb mb eb)).
    unfold D. rewrite to_Q_opp, (to_Q_zero sa), u24_value.
    split; intros H; lra.
  - change (sub (S754_finite sa ma ea) (S754_zero sb))
      with (S754_finite sa ma ea).
    unfold D. rewrite (to_Q_zero sb), u24_value.
    split; intros H; lra.
  - pose proof (valid_exponent _ _ _ Hva). pose proof (valid_exponent _ _ _ Hvb).
    unfold sub, SFsub in *.
    set (ez := Z.min ea eb) in *.
    assert (HD : (D == val (cond_Zopp sa (Z.pos (fst (shl_align ma ea ez)))
                             - cond_Zopp sb (Z.pos (fst (shl_align mb eb ez))))
                         ez)%Q).
    { unfold D. rewrite <- (aligned_val sa ma ea ez), <- (aligned_val sb mb eb ez)
        by (unfold ez; lia).
      rewrite val_minus. reflexivity. }
    pose proof (binary_normalize_bound _ ez ltac:(unfold ez; lia) Hfin) as Hb.
    cbv zeta in Hb. rewrite <- HD in Hb. exact Hb.
Qed.

End Rounding.

Module FluxLag.

Import F32 Rounding.

Local Open Scope Q_scope.

(** The Euler increment, rounded three times, stays below the next grid
    point after the exact distance [D]. *)
Lemma euler_increment_bound (K T D d p inc : Q) :
  0 <= K -> 0 <= T -> 0 <= D ->
  0 <= d -> d <= D + D * u24 ->
  0 <= p -> p <= 2 * (K * d) -> p <= K * d + K * d * u24 + half_eta ->
  0 <= inc -> inc <= 2 * (p * T) -> inc <= p * T + p * T * u24 + half_eta ->
  K * T <= 1 # 4 \/ (T <= 1 /\ K * T <= gain_step_max) ->
  D == 0 \/ val 1 (-149) <= D ->
  inc < D + val 1 (-149).
Proof.
  intros HK HT HD Hd0 Hd Hp0 Hp2 Hpt Hi0 Hi2 Hit Hgain Hgrid.
  rewrite u24_value, half_eta_value, eta_value in *.
  unfold gain_step_max in Hgain.
  destruct Hgrid as [HD0 | HDpos].
  - (* nothing to cover: every value is 0 *)
    assert (Hdz : d == 0) by lra.
    assert (Hpz : p == 0).
    { rewrite Hdz in Hp2. rewrite Qmult_0_r in Hp2. lra. }
    rewrite Hpz in Hi2. rewrite Qmult_0_l in Hi2. lra.
  - set (X := p * T) in *.
    assert (HX0 : 0 <= X) by (apply Qmult_le_0_compat; assumption).
    set (Y := (K * T) * d).
    assert (HY0 : 0 <= Y)
      by (apply Qmult_le_0_compat; [apply Qmult_le_0_compat |]; assumption).
    destruct Hgain as [Hq | [HT1 Hc]].
    + assert (HY : Y <= (1 # 4) * d)
        by (apply Qmult_le_compat_r; assumption).
      assert (HX : X <= 2 * Y).
      { unfold X, Y. apply Qle_trans with (2 * (K * d) * T).
        - apply Qmult_le_compat_r; assumption.
        - apply Qle_lteq. right. ring. }
      lra.
    + assert (HY : Y <= (1048575 # 1048576) * d)
        by (apply Qmult_le_compat_r; assumption).
      assert (HX : X <= Y + Y * (1 # 16777216)
                        + (1 # 1427247692705959881058285969449495136382746624) * T).
      { unfold X, Y.
        apply Qle_trans
          with ((K * d + K * d * (1 # 16777216)
                 + (1 # 1427247692705959881058285969449495136382746624)) * T).
        - apply Qmult_le_compat_r; assumption.
        - apply Qle_lteq. right. ring. }
      lra.
Qed.

(** The increment of a step towards a target above. *)
Lemma increment_up k dt d D :
  is_finite (mul (mul k d) dt) = true ->
  0 <= to_Q k -> 0 <= to_Q dt ->
  to_Q k * to_Q dt <= 1 # 4 \/
  (to_Q dt <= 1 /\ to_Q k * to_Q dt <= gain_step_max) ->
  0 <= D -> on_grid D ->
  0 <= to_Q d -> to_Q d <= D + D * u24 ->
  0 <= to_Q (mul (mul k d) dt) /\ to_Q (mul (mul k d) dt) <= D.
Proof.
  intros Hfin Hk Hdt Hgain HD HgD Hd0 Hd.
  destruct (mul_finite_inv _ _ Hfin) as [Hfp _].
  destruct (mul_nonneg k d Hfp Hk Hd0) as (Hp0 & Hp2 & Hpt & _).
  destruct (mul_nonneg (mul k d) dt Hfin Hp0 Hdt) as (Hi0 & Hi2 & Hit & Hgi).
  cbv zeta in *.
  split; [exact Hi0 |].
  apply on_grid_lt_le; [exact Hgi | exact HgD |].
  apply (euler_increment_bound (to_Q k) (to_Q dt) D (to_Q d) (to_Q (mul k d)));
    try assumption.
  destruct (Qlt_le_dec 0 D) as [Hpos | Hle].
  - right. apply on_grid_pos; assumption.
  - left. lra.
Qed.

(** One Euler step of the flux lag, all roundings included, lands
    between the flux and its target. *)
Lemma flux_step_between k id flux dt :
  valid_binary prec emax flux = true ->
  valid_binary prec emax id = true ->
  is_finite (flux_step k id flux dt) = true ->
  0 <= to_Q k -> 0 <= to_Q dt ->
  to_Q k * to_Q dt <= 1 # 4 \/
  (to_Q dt <= 1 /\ to_Q k * to_Q dt <= gain_step_max) ->
  (to_Q flux <= to_Q id ->
   to_Q flux <= to_Q (flux_step k id flux dt) /\
   to_Q (flux_step k id flux dt) <= to_Q id) /\
  (to_Q id <= to_Q flux ->
   to_Q id <= to_Q (flux_step k id flux dt) /\
   to_Q (flux_step k id flux dt) <= to_Q flux).
Proof.
  intros Hvf Hvi Hfin Hk Hdt Hgain. unfold flux_step in *.
  set (d := sub id flux) in *.
  destruct (add_finite_inv _ _ Hfin) as [Hff Hfinc].
  destruct (mul_finite_inv _ _ Hfinc) as [Hfp Hfdt].
  destruct (mul_finite_inv _ _ Hfp) as [Hfk Hfd].
  destruct (sub_finite_inv _ _ Hfd) as [Hfi _].
  pose proof (sub_bound id flux Hvi Hvf Hfd) as [Hup Hdown].
  cbv zeta in Hup, Hdown. fold d in Hup, Hdown.
  assert (HgD : on_grid (to_Q id - to_Q flux))
    by (apply on_grid_minus; apply on_grid_valid; assumption).
  split; intros Hside.
  - (* the target is above *)
    destruct (Hup ltac:(lra)) as [Hd0 Hd].
    destruct (increment_up k dt d (to_Q id - to_Q flux) Hfinc Hk Hdt Hgain
                ltac:(lra) HgD Hd0 Hd) as [Hi0 Hi].
    destruct (add_between flux (mul (mul k d) dt) flux id
                Hff Hfinc Hff Hvf Hfi Hvi ltac:(lra) ltac:(lra))
      as (_ & Hlo & Hhi).
    split; assumption.
  - (* the target is below: the same step on the negated difference *)
    destruct (Hdown ltac:(lra)) as [Hd Hd0].
    assert (Hdd : d = opp (opp d)) by (symmetry; apply opp_involutive).
    assert (Hinc : mul (mul k d) dt = opp (mul (mul k (opp d)) dt)).
    { rewrite Hdd at 1. rewrite mul_opp_r, mul_opp_l. reflexivity. }
    assert (Hfinc' : is_finite (mul (mul k (opp d)) dt) = true).
    { rewrite <- is_finite_opp, <- Hinc. exact Hfinc. }
    assert (Hod : to_Q (opp d) == - to_Q d) by apply to_Q_opp.
    destruct (increment_up k dt (opp d) (to_Q flux - to_Q id) Hfinc' Hk Hdt Hgain
                ltac:(lra)
                ltac:(apply on_grid_minus; apply on_grid_valid; assumption)
                ltac:(lra) ltac:(rewrite u24_value in *; lra)) as [Hi0 Hi].
    assert (Hv : to_Q (mul (mul k d) dt) == - to_Q (mul (mul k (opp d)) dt))
      by (rewrite Hinc; apply to_Q_opp).
    destruct (add_between flux (mul (mul k d) dt) id flux
                Hff Hfinc Hfi Hvi Hff Hvf ltac:(lra) ltac:(lra))
      as (_ & Hlo & Hhi).
    split; assumption.
Qed.

Lemma gain_step_ok_spec k dt :
  gain_step_ok k dt = true ->
  to_Q k * to_Q dt <= 1 # 4 \/
  (to_Q dt <= 1 /\ to_Q k * to_Q dt <= gain_step_max).
Proof.
  unfold gain_step_ok. intros H.
  apply orb_true_iff in H. destruct H as [H | H].
  - left. apply Qle_bool_iff. exact H.
  - apply andb_true_iff in H. destruct H as [H1 H2].
    right. split; apply Qle_bool_iff; assumption.
Qed.

End FluxLag.

(** C7, amended. In a cycle with all inputs present and [active] already
    true, with [dt >= 0] and [slip_gain >= 0], and with [slip_gain * dt]
    at most 1/4, or [dt] at most one second and [slip_gain * dt] at most
    [1 - 2^-20]: if the previous [rotor_flux] and [id] are binary32
    numbers and the new [rotor_flux] is finite (no operation of the step
    overflowed), then the new [rotor_flux], as computed with its four
    roundings, lies between the previous one and [id]: it is at least as
    close to [id] and not on the other side of it. *)
Theorem rotor_flux_approaches_id
    clock wrap self rotor_phase rotor_phase_vel id iq timestamp :
  active_ self = true ->
  let k := slip_velocity (config_ self) in
  let dt := time_step clock timestamp (last_timestamp_ self) in
  let self' :=
    update clock wrap self (present rotor_phase rotor_phase_vel id iq) timestamp in
  valid_binary F32.prec F32.emax (rotor_flux_ self) = true ->
  valid_binary F32.prec F32.emax id = true ->
  F32.is_finite (rotor_flux_ self') = true ->
  (0 <= F32.to_Q k)%Q ->
  (0 <= F32.to_Q dt)%Q ->
  gain_step_ok k dt = true ->
  let F := F32.to_Q (rotor_flux_ self) in
  let F' := F32.to_Q (rotor_flux_ self') in
  let I := F32.to_Q id in
  ((F <= I -> F <= F' /\ F' <= I) /\ (I <= F -> I <= F' /\ F' <= F))%Q.
Proof.
  intros Hact k dt self' Hflux Hid Hfin Hk Hdt Hok F F' I.
  subst self' F F' I. revert Hfin.
  rewrite update_integrate by exact Hact.
  cbn [rotor_flux_]. fold k dt. intros Hfin.
  apply FluxLag.flux_step_between; try assumption.
  apply FluxLag.gain_step_ok_spec. exact Hok.
Qed.

(** C7 as stated fails, in four ways. From the bootstrap state
    ([rotor_flux = 0]) with [slip_gain = 50] and [id = 10], a call one
    second later ([dt = 1 > 0], so [slip_gain * dt = 50]) takes
    [rotor_flux] to 500: beyond [id], and farther from it. And with
    [slip_gain * dt = 1] ([slip_gain = 1], [dt = 1]), [rotor_flux = -1000]
    and [id = 1 + 3 * 2^-16], the difference [id - rotor_flux] rounds up
    and the new flux, [1 + 4 * 2^-16], lies beyond [id]. With
    [slip_gain * dt] below 1/4 ([slip_gain = 50], a step of 8000 ticks)
    and [id] the largest binary32, the product [slip_gain * (id - 0)]
    overflows and the new flux is infinite, beyond [id]. And with
    [slip_gain * dt] about 0.9 but a step of three seconds
    ([slip_gain] nearest to 0.3), [rotor_flux = 0] and [id = 2 * 2^-149],
    the product [slip_gain * id] rounds up to [2^-149], three times that
    is the increment, and the new flux [3 * 2^-149] lies beyond [id]. *)
Lemma rotor_flux_overshoots_id :
  (let self := Example.booted in
   let self' := update Example.clock wrap_pm_pi_model self Example.ports 8000000 in
   let id := Example.f 10 in
   Example.ports = present F32.zero (Example.f 100) id (Example.f 5) /\
   active_ self = true /\
   F32.ltb F32.zero (time_step Example.clock 8000000 (last_timestamp_ self)) = true /\
   rotor_flux_ self = F32.zero /\
   rotor_flux_ self' = Example.f 500 /\
   F32.ltb (rotor_flux_ self) id = true /\
   F32.ltb id (rotor_flux_ self') = true /\
   F32.ltb (F32.abs (id - rotor_flux_ self)%f32)
           (F32.abs (id - rotor_flux_ self')%f32) = true) /\
  (let self := Example.unit_gain in
   let id := S754_finite false 8388992 (-23) in
   let self' :=
     update Example.clock wrap_pm_pi_model self
       (present F32.zero (Example.f 100) id (Example.f 5)) 8000000 in
   active_ self = true /\
   time_step Example.clock 8000000 (last_timestamp_ self) = Example.f 1 /\
   slip_velocity (config_ self) = Example.f 1 /\
   rotor_flux_ self = Example.f (-1000) /\
   F32.ltb (rotor_flux_ self) id = true /\
   rotor_flux_ self' = S754_finite false 8389120 (-23) /\
   F32.ltb id (rotor_flux_ self') = true) /\
  (let self := Example.booted in
   let id := Example.max_float in
   let dt := time_step Example.clock 8000 (last_timestamp_ self) in
   let self' :=
     update Example.clock wrap_pm_pi_model self
       (present F32.zero (Example.f 100) id (Example.f 5)) 8000 in
   active_ self = true /\
   F32.ltb F32.zero dt = true /\
   gain_step_ok (slip_velocity (config_ self)) dt = true /\
   rotor_flux_ self = F32.zero /\
   F32.ltb (rotor_flux_ self) id = true /\
   rotor_flux_ self' = S754_infinity false /\
   F32.ltb id (rotor_flux_ self') = true) /\
  (let self := Example.slow_gain in
   let id := Example.two_eta in
   let dt := time_step Example.clock 24000000 (last_timestamp_ self) in
   let self' :=
     update Example.clock wrap_pm_pi_model self
       (present F32.zero (Example.f 100) id (Example.f 5)) 24000000 in
   active_ self = true /\
   dt = Example.f 3 /\
   Qle_bool 0 (F32.to_Q (slip_velocity (config_ self))) = true /\
   Qle_bool (F32.to_Q (slip_velocity (config_ self)) * F32.to_Q dt)
            gain_step_max = true /\
   rotor_flux_ self = F32.zero /\
   F32.ltb (rotor_flux_ self) id = true /\
   rotor_flux_ self' = S754_finite false 3 (-149) /\
   F32.ltb id (rotor_flux_ self') = true).
Proof.
  vm_compute. repeat split.
Qed.

(** ** The range of the two angles *)





(** What [update] writes to the two angles in a call that integrates is
    [wrap_pm_pi] of these arguments, in this order. *)
Lemma update_wraps_its_arguments clock wrap self ports timestamp :
  map wrap (wrap_arguments clock wrap self ports timestamp) =
  if all_present ports && active_ self
  then [phase_offset_ (update clock wrap self ports timestamp);
        stator_phase_ (update clock wrap self ports timestamp)]
  else [].
Proof.
  destruct ports as [[rp|] [rpv|] [[id iq]|]]; try reflexivity.
  unfold wrap_arguments, update, all_present; cbn.
  destruct (active_ self); reflexivity.
Qed.




(** ** The scenario of the spec *)

(** C8. Clock 8,000,000 ticks/s, [slip_gain = 50], starting inactive.
    Call 1 at tick 0, all inputs present, bootstraps. Call 2 at tick 800
    with [id = 10], [iq = 5], [rotor_phase = 0], [rotor_phase_vel = 100]:
    [dt] is the binary32 nearest to 0.0001; [rotor_flux] is 0.05 up to
    rounding (one unit in the last place below the binary32 nearest to
    it); the raw slip is 5000 and the threshold [0.1f / dt] is 1000, both
    up to rounding; the raw slip exceeds the threshold, so [slip_vel = 0],
    [stator_phase_vel = 100], [phase_offset = 0] and [stator_phase = 0],
    for a [wrap_pm_pi] that leaves 0 at 0. *)
Theorem scenario_two_calls wrap self rotor_phase1 rotor_phase_vel1 id1 iq1 :
  wrap F32.zero = F32.zero ->
  active_ self = false ->
  slip_velocity (config_ self) = F32.of_Z 50 ->
  let clock := 8000000 in
  let s1 :=
    update clock wrap self (present rotor_phase1 rotor_phase_vel1 id1 iq1) 0 in
  let s2 :=
    update clock wrap s1
      (present F32.zero (F32.of_Z 100) (F32.of_Z 10) (F32.of_Z 5)) 800 in
  let dt := time_step clock 800 (last_timestamp_ s1) in
  let raw := raw_slip (F32.of_Z 50) (F32.of_Z 5) (rotor_flux_ s2) in
  let threshold := (F32.lit_0_1 / dt)%f32 in
  (active_ s1 = true /\ rotor_flux_ s1 = F32.zero /\ phase_offset_ s1 = F32.zero) /\
  (dt = (F32.of_Z 1 / F32.of_Z 10000)%f32 /\
   ((1 # 10000) - (1 # 100000000000) <= F32.to_Q dt <= 1 # 10000)%Q) /\
  (rotor_flux_ s2 = S754_finite false 13421772 (-28) /\
   ((1 # 20) - (1 # 100000000) <= F32.to_Q (rotor_flux_ s2) <= 1 # 20)%Q) /\
  (5000 <= F32.to_Q raw <= 5000 + (1 # 1000))%Q /\
  (1000 <= F32.to_Q threshold <= 1000 + (1 # 1000))%Q /\
  (F32.abs raw >? threshold)%f32 = true /\
  slip_vel_ s2 = F32.zero /\
  stator_phase_vel_ s2 = F32.of_Z 100 /\
  phase_offset_ s2 = F32.zero /\
  stator_phase_ s2 = F32.zero.
Proof.
  intros Hwrap Hact Hk clock s1 s2 dt raw threshold.
  subst raw threshold dt s2 s1 clock.
  rewrite update_bootstrap by exact Hact.
  rewrite update_integrate by reflexivity.
  cbn [config_ active_ last_timestamp_ rotor_flux_ phase_offset_ slip_vel_
       stator_phase_vel_ stator_phase_].
  rewrite Hk.
  set (dt := time_step 8000000 800 0).
  set (flux := flux_step (F32.of_Z 50) (F32.of_Z 10) F32.zero dt).
  set (raw := raw_slip (F32.of_Z 50) (F32.of_Z 5) flux).
  assert (Hdt : dt = S754_finite false 13743895 (-37)) by (vm_compute; reflexivity).
  assert (Hflux : flux = S754_finite false 13421772 (-28)) by (vm_compute; reflexivity).
  assert (Hraw : raw = S754_finite false 10240001 (-11)) by (vm_compute; reflexivity).
  assert (Hslip : clamp_slip raw dt = F32.zero) by (vm_compute; reflexivity).
  rewrite Hslip.
  replace (F32.zero + F32.zero * dt)%f32 with F32.zero
    by (rewrite Hdt; reflexivity).
  rewrite Hwrap.
  change (F32.zero + F32.zero)%f32 with F32.zero. rewrite Hwrap.
  rewrite Hraw, Hflux, Hdt.
  repeat split; vm_compute; first [reflexivity | discriminate].
Qed.

(** * The theorems at concrete inputs *)

Module Instances.

Import Example.

Lemma clock_positive : F32.is_pos_finite (F32.of_Z clock) = true.
Proof. reflexivity. Qed.

Lemma wrap_model_zero : wrap_pm_pi_model F32.zero = F32.zero.
Proof. vm_compute. reflexivity. Qed.

(** C1 at a running estimator whose [idq] port is empty. *)
Lemma update_missing_input_only_deactivates_witness :
  input_missing no_idq /\
  active_ (update clock wrap_pm_pi_model running no_idq 1800) = false /\
  rotor_flux_ (update clock wrap_pm_pi_model running no_idq 1800) = f 8 /\
  last_timestamp_ (update clock wrap_pm_pi_model running no_idq 1800) = 1000.
Proof.
  assert (Hmiss : input_missing no_idq) by (right; right; reflexivity).
  split; [exact Hmiss |].
  destruct (update_missing_input_only_deactivates
              clock wrap_pm_pi_model running no_idq 1800 Hmiss)
    as (Ha & Hf & _ & _ & _ & _ & Ht & _).
  split; [exact Ha |]. split; [exact Hf | exact Ht].
Defined.

(** C2 at a deactivated estimator with stale outputs. *)
Lemma update_bootstrap_resets_witness :
  active_ stale = false /\
  rotor_flux_ (update clock wrap_pm_pi_model stale ports 20000) = F32.zero /\
  phase_offset_ (update clock wrap_pm_pi_model stale ports 20000) = F32.zero /\
  active_ (update clock wrap_pm_pi_model stale ports 20000) = true /\
  stator_phase_ (update clock wrap_pm_pi_model stale ports 20000) = f (-1) /\
  stator_phase_vel_ (update clock wrap_pm_pi_model stale ports 20000) = f 3.
Proof.
  split; [reflexivity |].
  apply (update_bootstrap_resets clock wrap_pm_pi_model stale
           F32.zero (f 100) (f 10) (f 5) 20000).
  reflexivity.
Defined.

(** C9 at the same estimator. *)
Lemma update_bootstrap_frame_witness :
  active_ stale = false /\
  slip_vel_ (update clock wrap_pm_pi_model stale ports 20000) = f 2.
Proof.
  split; [reflexivity |].
  apply (update_bootstrap_frame clock wrap_pm_pi_model stale
           F32.zero (f 100) (f 10) (f 5) 20000).
  reflexivity.
Defined.

(** C4 at a running estimator, 800 ticks after its last call. *)
Lemma update_stator_phase_vel_witness :
  active_ running = true /\
  stator_phase_vel_ (update clock wrap_pm_pi_model running ports 1800) =
  (f 100 + slip_vel_ (update clock wrap_pm_pi_model running ports 1800))%f32.
Proof.
  split; [reflexivity |].
  apply (update_stator_phase_vel clock wrap_pm_pi_model running
           F32.zero (f 100) (f 10) (f 5) 1800).
  reflexivity.
Defined.

(** C6 across an overflow of the counter: from tick 2^32 - 400 to tick
    400 is 800 ticks. *)
Lemma update_time_step_witness :
  is_u32 400 /\ is_u32 (last_timestamp_ near_overflow) /\
  last_timestamp_ (update clock wrap_pm_pi_model near_overflow ports 400) = 400 /\
  time_step clock 400 (last_timestamp_ near_overflow) =
  (F32.of_Z 800 / F32.of_Z clock)%f32.
Proof.
  assert (H1 : is_u32 400) by (unfold is_u32; lia).
  assert (H2 : is_u32 (last_timestamp_ near_overflow))
    by (unfold is_u32; cbn; lia).
  split; [exact H1 |]. split; [exact H2 |].
  destruct (update_time_step clock wrap_pm_pi_model near_overflow
              F32.zero (f 100) (f 10) (f 5) 400 H1 H2)
    as (Hl & _ & Hdt & _).
  split; [exact Hl | exact Hdt].
Defined.

(** C3 at a running estimator: the slip passes the guard. *)
Lemma update_slip_vel_witness :
  F32.is_pos_finite (F32.of_Z clock) = true /\
  active_ running = true /\
  slip_vel_ (update clock wrap_pm_pi_model running ports 1800) =
  S754_finite false 16363545 (-19).
Proof.
  split; [reflexivity |]. split; [reflexivity |].
  unfold ports.
  rewrite (update_slip_vel clock wrap_pm_pi_model clock_positive running
             F32.zero (f 100) (f 10) (f 5) 1800 eq_refl).
  vm_compute. reflexivity.
Defined.

(** C10 at a running estimator called again at its last tick. *)
Lemma update_duplicate_timestamp_witness :
  F32.is_pos_finite (F32.of_Z clock) = true /\
  active_ running = true /\
  time_step clock (last_timestamp_ running) (last_timestamp_ running) = F32.zero /\
  rotor_flux_
    (update clock wrap_pm_pi_model running ports (last_timestamp_ running)) =
  rotor_flux_ running.
Proof.
  split; [reflexivity |]. split; [reflexivity |].
  destruct (update_duplicate_timestamp clock wrap_pm_pi_model clock_positive
              running F32.zero (f 100) (f 10) (f 5) eq_refl)
    as (Hdt & _ & Hflux & _).
  split; [exact Hdt |].
  destruct (Hflux eq_refl) as [H | [H _]]; [exact H | discriminate H].
Defined.

(** C7 at a running estimator with [rotor_flux = 8], [id = 10] and a
    step of 800 ticks, the binary32 nearest to 0.0001 s:
    [slip_gain * dt] is about 0.005, the step rounds, and the flux moves
    to a value between 8 and 10. *)
Lemma rotor_flux_approaches_id_witness :
  active_ running = true /\
  valid_binary F32.prec F32.emax (f 8) = true /\
  valid_binary F32.prec F32.emax (f 10) = true /\
  F32.is_finite
    (rotor_flux_ (update clock wrap_pm_pi_model running ports 1800)) = true /\
  (0 <= F32.to_Q (f 50))%Q /\
  (0 <= F32.to_Q (time_step clock 1800 1000))%Q /\
  gain_step_ok (f 50) (time_step clock 1800 1000) = true /\
  (F32.to_Q (f 8) <=
     F32.to_Q (rotor_flux_ (update clock wrap_pm_pi_model running ports 1800)) /\
   F32.to_Q (rotor_flux_ (update clock wrap_pm_pi_model running ports 1800)) <=
     F32.to_Q (f 10))%Q.
Proof.
  assert (Hfin : F32.is_finite
            (rotor_flux_ (update clock wrap_pm_pi_model running ports 1800)) = true)
    by (vm_compute; reflexivity).
  assert (Hk : (0 <= F32.to_Q (f 50))%Q) by (vm_compute; discriminate).
  assert (Hdt : (0 <= F32.to_Q (time_step clock 1800 1000))%Q)
    by (vm_compute; discriminate).
  split; [reflexivity |]. split; [reflexivity |]. split; [reflexivity |].
  split; [exact Hfin |]. split; [exact Hk |]. split; [exact Hdt |].
  split; [reflexivity |].
  apply (rotor_flux_approaches_id clock wrap_pm_pi_model running
           F32.zero (f 100) (f 10) (f 5) 1800
           eq_refl eq_refl eq_refl Hfin Hk Hdt eq_refl).
  vm_compute. discriminate.
Defined.


(** C8 from a deactivated estimator with stale outputs. *)
Lemma scenario_two_calls_witness :
  wrap_pm_pi_model F32.zero = F32.zero /\
  active_ stale = false /\
  slip_velocity (config_ stale) = F32.of_Z 50 /\
  stator_phase_vel_
    (update 8000000 wrap_pm_pi_model
       (update 8000000 wrap_pm_pi_model stale ports 0)
       (present F32.zero (F32.of_Z 100) (F32.of_Z 10) (F32.of_Z 5)) 800) =
  F32.of_Z 100.
Proof.
  split; [exact wrap_model_zero |]. split; [reflexivity |].
  split; [reflexivity |].
  apply (scenario_two_calls wrap_pm_pi_model stale
           F32.zero (f 100) (f 10) (f 5) wrap_model_zero eq_refl eq_refl).
Defined.

End Instances.


(** * Further properties of [update] *)

(** ** The state machine over sequences of calls *)

Lemma run_app clock wrap self cycles1 cycles2 :
  run clock wrap self (cycles1 ++ cycles2) =
  run clock wrap (run clock wrap self cycles1) cycles2.
Proof.
  revert self. induction cycles1 as [| [ports timestamp] rest IH]; intros self; cbn.
  - reflexivity.
  - apply IH.
Qed.

Lemma all_present_inv ports :
  all_present ports = true ->
  exists rotor_phase rotor_phase_vel id iq,
    ports = present rotor_phase rotor_phase_vel id iq.
Proof.
  destruct ports as [[rp|] [rpv|] [[id iq]|]]; try discriminate. intros _.
  exists rp, rpv, id, iq. reflexivity.
Qed.

Lemma all_present_false_missing ports :
  all_present ports = false -> input_missing ports.
Proof.
  unfold input_missing.
  destruct ports as [[rp|] [rpv|] [[id iq]|]]; try discriminate; cbn; auto.
Qed.

Lemma update_active clock wrap self ports timestamp :
  active_ (update clock wrap self ports timestamp) = all_present ports.
Proof.
  destruct (all_present ports) eqn:Hp.
  - destruct (all_present_inv _ Hp) as (rp & rpv & id & iq & ->).
    destruct (active_ self) eqn:Hact.
    + rewrite update_integrate by exact Hact. reflexivity.
    + rewrite update_bootstrap by exact Hact. reflexivity.
  - rewrite update_missing by (apply all_present_false_missing; exact Hp).
    reflexivity.
Qed.

(** X1. After any sequence of calls, [active] tells whether the most
    recent call found all three inputs present: it is true exactly then,
    whatever the state before and whatever the earlier calls did. *)
Theorem active_reflects_last_call clock wrap self cycles ports timestamp :
  active_ (run clock wrap self (cycles ++ [(ports, timestamp)])) =
  all_present ports.
Proof.
  rewrite run_app. cbn. apply update_active.
Qed.

Lemma update_config clock wrap self ports timestamp :
  config_ (update clock wrap self ports timestamp) = config_ self.
Proof.
  destruct (all_present ports) eqn:Hp.
  - destruct (all_present_inv _ Hp) as (rp & rpv & id & iq & ->).
    destruct (active_ self) eqn:Hact.
    + rewrite update_integrate by exact Hact. reflexivity.
    + rewrite update_bootstrap by exact Hact. reflexivity.
  - rewrite update_missing by (apply all_present_false_missing; exact Hp).
    reflexivity.
Qed.

(** X2. No sequence of calls changes the configuration: [update] reads
    [config_.slip_velocity] and never writes it. *)
Theorem run_keeps_config clock wrap cycles self :
  config_ (run clock wrap self cycles) = config_ self.
Proof.
  revert self. induction cycles as [| [ports timestamp] rest IH]; intros self; cbn.
  - reflexivity.
  - rewrite IH. apply update_config.
Qed.

(** X3. A restart forgets the past. Take two estimators that are both
    inactive and share a configuration, but differ in everything else.
    Bootstrap both at the same tick (with whatever inputs), then give both
    the same second call: they end in the same state, member for member.
    Nothing of the flux, the phase offset, the outputs or the time stamp
    from before the bootstrap survives the first integration cycle. *)
Theorem restart_forgets_history clock wrap self1 self2
    rp1 rpv1 id1 iq1 rp2 rpv2 id2 iq2 t1 rotor_phase rotor_phase_vel id iq t2 :
  active_ self1 = false ->
  active_ self2 = false ->
  config_ self1 = config_ self2 ->
  update clock wrap (update clock wrap self1 (present rp1 rpv1 id1 iq1) t1)
    (present rotor_phase rotor_phase_vel id iq) t2 =
  update clock wrap (update clock wrap self2 (present rp2 rpv2 id2 iq2) t1)
    (present rotor_phase rotor_phase_vel id iq) t2.
Proof.
  intros H1 H2 Hcfg.
  rewrite (update_bootstrap clock wrap self1) by exact H1.
  rewrite (update_bootstrap clock wrap self2) by exact H2.
  rewrite !update_integrate by reflexivity. cbn. rewrite Hcfg. reflexivity.
Qed.

Lemma run_missing clock wrap cycles self :
  Forall (fun c => input_missing (fst c)) cycles ->
  cycles <> [] ->
  run clock wrap self cycles = deactivated self.
Proof.
  intros Hall. revert self.
  induction Hall as [| [ports timestamp] rest Hmiss Hrest IH]; intros self Hne.
  - contradiction.
  - cbn. cbn in Hmiss. rewrite update_missing by exact Hmiss.
    destruct rest as [| c rest'].
    + reflexivity.
    + rewrite IH by discriminate. reflexivity.
Qed.

(** X4. Outputs are held across a dropout and across the restart that
    ends it. After any number (at least one) of calls with a missing
    input followed by a call with all inputs present, [slip_vel],
    [stator_phase_vel] and [stator_phase] are still those from before the
    dropout, while [rotor_flux] and [phase_offset] are 0, [active] is
    true and [last_timestamp] is the tick of the restart. *)
Theorem dropout_then_restart clock wrap self cycles
    rotor_phase rotor_phase_vel id iq timestamp :
  Forall (fun c => input_missing (fst c)) cycles ->
  cycles <> [] ->
  let self' :=
    run clock wrap self
      (cycles ++ [(present rotor_phase rotor_phase_vel id iq, timestamp)]) in
  slip_vel_ self' = slip_vel_ self /\
  stator_phase_vel_ self' = stator_phase_vel_ self /\
  stator_phase_ self' = stator_phase_ self /\
  rotor_flux_ self' = F32.zero /\
  phase_offset_ self' = F32.zero /\
  active_ self' = true /\
  last_timestamp_ self' = timestamp.
Proof.
  intros Hall Hne self'. subst self'.
  rewrite run_app, (run_missing _ _ _ _ Hall Hne). cbn [run].
  rewrite update_bootstrap by reflexivity. cbn. repeat split.
Qed.

(** ** The time step, further *)

Lemma sub_u32_shift a b c :
  sub_u32 ((a + c) mod 2 ^ 32) ((b + c) mod 2 ^ 32) = sub_u32 a b.
Proof.
  unfold sub_u32.
  rewrite Zminus_mod_idemp_l, Zminus_mod_idemp_r.
  f_equal. lia.
Qed.

(** X5. Only the elapsed ticks matter, not where the counter stands.
    Shift both the stored [last_timestamp] and the new [timestamp] by the
    same number of ticks, wrapping at 2^32: the call computes the same
    flux, phase offset, outputs and [active] flag. So a counter overflow
    between two calls changes nothing in the estimate. *)
Theorem update_shift_invariant clock wrap self ports timestamp c :
  same_estimate
    (update clock wrap
       (with_last_timestamp self ((last_timestamp_ self + c) mod 2 ^ 32))
       ports ((timestamp + c) mod 2 ^ 32))
    (update clock wrap self ports timestamp).
Proof.
  unfold same_estimate.
  destruct (all_present ports) eqn:Hp.
  - destruct (all_present_inv _ Hp) as (rp & rpv & id & iq & ->).
    destruct (active_ self) eqn:Hact.
    + rewrite !update_integrate by (cbn; exact Hact). cbn.
      unfold time_step. rewrite sub_u32_shift. repeat split.
    + rewrite !update_bootstrap by (cbn; exact Hact). cbn. repeat split.
  - pose proof (all_present_false_missing _ Hp) as Hmiss.
    rewrite !update_missing by exact Hmiss. cbn. repeat split.
Qed.

Module SignFacts.

Import F32.

(** Rounding keeps the sign it is given. *)
Lemma binary_round_aux_sign_clear mx ex lx :
  0 <= mx -> sign_clear (binary_round_aux prec emax false mx ex lx) = true.
Proof.
  intros H. unfold binary_round_aux.
  pose proof (F32Facts.shr_fexp_nonneg mx ex lx H) as H1.
  destruct (shr_fexp prec emax mx ex lx) as [mrs' e']. cbn in H1.
  pose proof (F32Facts.shr_fexp_nonneg _ e' loc_Exact
                (F32Facts.round_nearest_even_nonneg _ (loc_of_shr_record mrs') H1))
    as H2.
  destruct (shr_fexp prec emax _ e' loc_Exact) as [mrs'' e'']. cbn in H2.
  destruct (shr_m mrs'') as [| m | m]; try reflexivity.
  - destruct (e'' <=? emax - prec); reflexivity.
  - lia.
Qed.

Lemma of_Z_sign_clear n : 0 <= n -> sign_clear (of_Z n) = true.
Proof.
  intros Hn. unfold of_Z, binary_normalize, binary_round.
  destruct n as [| m | m]; try reflexivity; try lia.
  destruct (shl_align m 0 _) as [mz ez].
  apply binary_round_aux_sign_clear. lia.
Qed.

Lemma div_finite_sign_clear mx ex my ey :
  sign_clear (div (S754_finite false mx ex) (S754_finite false my ey)) = true.
Proof.
  unfold div, SFdiv.
  pose proof (F32Facts.div_core_nonneg mx ex my ey) as H.
  destruct (SFdiv_core_binary prec emax (Z.pos mx) ex (Z.pos my) ey)
    as [[mz ez] lz]. cbn in H. cbn [xorb].
  apply binary_round_aux_sign_clear. exact H.
Qed.

Lemma div_by_pos_finite_sign_clear x y :
  sign_clear x = true -> is_pos_finite y = true -> sign_clear (div x y) = true.
Proof.
  destruct y as [| | | [] my ey]; try discriminate. intros Hx _.
  destruct x as [[] | [] | | [] mx ex]; try discriminate; try reflexivity.
  apply div_finite_sign_clear.
Qed.

Lemma div_pos_finite_by_sign_clear x y :
  is_pos_finite x = true -> sign_clear y = true -> sign_clear (div x y) = true.
Proof.
  destruct x as [| | | [] mx ex]; try discriminate. intros _.
  destruct y as [[] | [] | | [] my ey]; try discriminate; intros _;
    try reflexivity.
  apply div_finite_sign_clear.
Qed.

Lemma sign_clear_not_nan x : sign_clear x = true -> is_nan x = false.
Proof. destruct x as [[] | [] | | [] m e]; try discriminate; reflexivity. Qed.

Lemma sign_clear_nonneg x : sign_clear x = true -> leb zero x = true.
Proof. destruct x as [[] | [] | | [] m e]; try discriminate; reflexivity. Qed.

End SignFacts.

Section TimeStepSign.

Variable clock : Z.
Hypothesis clock_positive : F32.is_pos_finite (F32.of_Z clock) = true.

Lemma time_step_sign_clear timestamp last_timestamp :
  sign_clear (time_step clock timestamp last_timestamp) = true.
Proof.
  unfold time_step.
  apply SignFacts.div_by_pos_finite_sign_clear; [| exact clock_positive].
  apply SignFacts.of_Z_sign_clear. unfold sub_u32.
  apply Z.mod_pos_bound. lia.
Qed.

Lemma threshold_sign_clear timestamp last_timestamp :
  sign_clear (F32.lit_0_1 / time_step clock timestamp last_timestamp)%f32 = true.
Proof.
  apply SignFacts.div_pos_finite_by_sign_clear;
    [reflexivity | apply time_step_sign_clear].
Qed.

(** X6. The time step is never negative and never a NaN, whatever the two
    tick counts, also when [timestamp] is behind [last_timestamp]: the
    unsigned subtraction turns a step backwards into a long step
    forwards. (The clock frequency converts to a positive float.) *)
Theorem time_step_never_negative timestamp last_timestamp :
  let dt := time_step clock timestamp last_timestamp in
  is_nan dt = false /\
  F32.leb F32.zero dt = true /\
  F32.ltb dt F32.zero = false.
Proof.
  cbn. pose proof (time_step_sign_clear timestamp last_timestamp) as H.
  split; [apply SignFacts.sign_clear_not_nan; exact H |].
  split; [apply SignFacts.sign_clear_nonneg; exact H |].
  destruct (time_step clock timestamp last_timestamp) as [[] | [] | | [] m e];
    try discriminate H; reflexivity.
Qed.

(** X7. In every cycle that integrates, the value written to [slip_vel]
    is not a NaN and its magnitude does not exceed the threshold
    [0.1f / dt] of that cycle. (The clock frequency converts to a
    positive float.) *)
Theorem slip_vel_within_threshold wrap self
    rotor_phase rotor_phase_vel id iq timestamp :
  active_ self = true ->
  let self' :=
    update clock wrap self (present rotor_phase rotor_phase_vel id iq) timestamp in
  let dt := time_step clock timestamp (last_timestamp_ self) in
  is_nan (slip_vel_ self') = false /\
  (F32.abs (slip_vel_ self') <=? F32.lit_0_1 / dt)%f32 = true.
Proof.
  intros Hact self' dt. subst self' dt.
  rewrite update_integrate by exact Hact. cbn.
  rewrite (clamp_slip_spec clock clock_positive). cbn zeta.
  set (q := raw_slip _ _ _).
  set (thr := (F32.lit_0_1 / _)%f32).
  assert (Hzero : is_nan F32.zero = false /\
                  (F32.abs F32.zero <=? thr)%f32 = true).
  { split; [reflexivity |].
    apply SignFacts.sign_clear_nonneg, threshold_sign_clear. }
  destruct (is_nan q) eqn:Hnan; cbn [negb andb]; [exact Hzero |].
  destruct (F32.leb (F32.abs q) thr) eqn:Hle; [| exact Hzero].
  split; [exact Hnan | exact Hle].
Qed.

End TimeStepSign.

(** ** Values that are no numbers *)

Module NanFacts.

Import F32.

Lemma sub_nan_r x : sub x S754_nan = S754_nan.
Proof. destruct x; reflexivity. Qed.

Lemma mul_nan_r x : mul x S754_nan = S754_nan.
Proof. destruct x; reflexivity. Qed.

Lemma div_nan_r x : div x S754_nan = S754_nan.
Proof. destruct x; reflexivity. Qed.

Lemma add_nan_r x : add x S754_nan = S754_nan.
Proof. destruct x; reflexivity. Qed.

Lemma sub_zero_r x : sub x zero = x.
Proof. destruct x as [[] | | |]; reflexivity. Qed.

Lemma sub_diag x : is_finite x = true -> sub x x = zero.
Proof.
  destruct x as [[] | | | s m e]; try discriminate; intros _; try reflexivity.
  unfold sub, SFsub. rewrite Z.sub_diag. reflexivity.
Qed.

Lemma mul_zero_l s y :
  is_finite y = true -> exists s', mul (S754_zero s) y = S754_zero s'.
Proof.
  destruct y as [sy | | | sy m e]; try discriminate; intros _; cbn; eauto.
Qed.

Lemma mul_zero_r x s :
  is_finite x = true -> exists s', mul x (S754_zero s) = S754_zero s'.
Proof.
  destruct x as [sx | | | sx m e]; try discriminate; intros _; cbn; eauto.
Qed.

(** Plus infinity exceeds every number. *)
Lemma gtb_infinity_finite y :
  is_finite y = true -> gtb (S754_infinity false) y = true.
Proof.
  destruct y as [sy | | | [] m e]; try discriminate; intros _; reflexivity.
Qed.

End NanFacts.

Lemma flux_step_nan k id dt : flux_step k id S754_nan dt = S754_nan.
Proof.
  unfold flux_step.
  rewrite NanFacts.sub_nan_r, NanFacts.mul_nan_r. reflexivity.
Qed.

Lemma clamp_slip_nan_flux k iq dt :
  clamp_slip (raw_slip k iq S754_nan) dt = F32.zero.
Proof.
  unfold raw_slip. rewrite NanFacts.div_nan_r, NanFacts.mul_nan_r. reflexivity.
Qed.

Lemma update_nan_flux clock wrap self rotor_phase rotor_phase_vel id iq timestamp :
  active_ self = true ->
  is_nan (rotor_flux_ self) = true ->
  let self' :=
    update clock wrap self (present rotor_phase rotor_phase_vel id iq) timestamp in
  active_ self' = true /\
  is_nan (rotor_flux_ self') = true /\
  slip_vel_ self' = F32.zero.
Proof.
  intros Hact Hnan self'. subst self'.
  rewrite update_integrate by exact Hact. cbn.
  destruct (rotor_flux_ self); try discriminate Hnan.
  rewrite flux_step_nan, clamp_slip_nan_flux. repeat split.
Qed.

(** X8. A NaN in [rotor_flux] does not heal while the estimator stays
    active. From an active state whose [rotor_flux] is a NaN, after any
    sequence of calls that all find their inputs present, [rotor_flux] is
    still a NaN and the estimator still active; and the slip written by
    the last of these calls is 0. Only a dropout followed by a bootstrap
    clears it. *)
Theorem nan_flux_persists clock wrap cycles self :
  active_ self = true ->
  is_nan (rotor_flux_ self) = true ->
  forallb (fun c => all_present (fst c)) cycles = true ->
  let self' := run clock wrap self cycles in
  active_ self' = true /\
  is_nan (rotor_flux_ self') = true /\
  (cycles <> [] -> slip_vel_ self' = F32.zero).
Proof.
  revert self.
  induction cycles as [| [ports timestamp] rest IH]; intros self Hact Hnan Hall; cbn.
  - repeat split; try assumption. intros H. contradiction.
  - cbn in Hall. apply andb_prop in Hall. destruct Hall as [Hp Hrest].
    destruct (all_present_inv _ Hp) as (rp & rpv & id & iq & ->).
    destruct (update_nan_flux clock wrap self rp rpv id iq timestamp Hact Hnan)
      as (Hact1 & Hnan1 & Hslip1).
    destruct (IH _ Hact1 Hnan1 Hrest) as (Hact' & Hnan' & Hslip').
    split; [exact Hact' |]. split; [exact Hnan' |]. intros _.
    destruct rest as [| c rest'].
    + exact Hslip1.
    + apply Hslip'. discriminate.
Qed.

(** ** A zero flux under the guard *)

(** X9. Two calls at the same tick poison the phase. Start inactive,
    with a positive finite [slip_gain]; call once with all inputs present
    (the bootstrap), then again at the same tick with a finite non-zero
    [iq] and an [id] small enough for [slip_gain * id] not to overflow.
    The second call leaves [rotor_flux] at 0, divides by it, and lets the
    infinite slip through the guard, whose threshold [0.1f / 0] is
    infinite too: [slip_vel] and [stator_phase_vel] receive an infinity
    and [wrap_pm_pi] is called on a NaN (infinity times [dt = 0]).
    (The clock frequency converts to a positive float.) *)
Theorem restart_on_same_tick clock wrap self
    rp1 rpv1 id1 iq1 rotor_phase rotor_phase_vel id s m e timestamp :
  F32.is_pos_finite (F32.of_Z clock) = true ->
  active_ self = false ->
  F32.is_pos_finite (slip_velocity (config_ self)) = true ->
  F32.is_finite (slip_velocity (config_ self) * id)%f32 = true ->
  let iq := S754_finite s m e in
  let s1 := update clock wrap self (present rp1 rpv1 id1 iq1) timestamp in
  let s2 :=
    update clock wrap s1 (present rotor_phase rotor_phase_vel id iq) timestamp in
  rotor_flux_ s2 = F32.zero /\
  slip_vel_ s2 = S754_infinity s /\
  stator_phase_vel_ s2 = (rotor_phase_vel + S754_infinity s)%f32 /\
  phase_offset_ s2 = wrap S754_nan /\
  stator_phase_ s2 = wrap (rotor_phase + wrap S754_nan)%f32.
Proof.
  intros Hclock Hact Hk Hkid iq s1 s2. subst iq s1 s2.
  rewrite (update_bootstrap clock wrap self) by exact Hact.
  rewrite update_integrate by reflexivity.
  cbn [config_ active_ last_timestamp_ rotor_flux_ phase_offset_ slip_vel_
       stator_phase_vel_ stator_phase_].
  rewrite (time_step_duplicate clock Hclock).
  set (k := slip_velocity (config_ self)) in *.
  assert (Hflux : flux_step k id F32.zero F32.zero = F32.zero).
  { destruct (flux_step_zero_step k id F32.zero) as [H | [H _]].
    - rewrite NanFacts.sub_zero_r. exact Hkid.
    - exact H.
    - discriminate H. }
  rewrite Hflux.
  assert (Hraw : raw_slip k (S754_finite s m e) F32.zero = S754_infinity s).
  { destruct k as [| | | [] mk ek]; try discriminate Hk.
    destruct s; reflexivity. }
  rewrite Hraw, clamp_slip_zero_step. cbn [is_nan].
  repeat split.
Qed.

(** X10. Away from a zero time step the guard does catch a division by a
    zero flux: in a cycle that integrates, if the slip quotient
    [slip_gain * (iq / rotor_flux')] is infinite and the threshold
    [0.1f / dt] is a finite number, then [slip_vel] is 0 and
    [stator_phase_vel] is [rotor_phase_vel + 0]. *)
Theorem infinite_slip_is_clamped clock wrap self
    rotor_phase rotor_phase_vel id iq timestamp :
  active_ self = true ->
  let self' :=
    update clock wrap self (present rotor_phase rotor_phase_vel id iq) timestamp in
  let dt := time_step clock timestamp (last_timestamp_ self) in
  is_infinite (raw_slip (slip_velocity (config_ self)) iq (rotor_flux_ self')) = true ->
  F32.is_finite (F32.lit_0_1 / dt)%f32 = true ->
  slip_vel_ self' = F32.zero /\
  stator_phase_vel_ self' = (rotor_phase_vel + F32.zero)%f32.
Proof.
  intros Hact self' dt. subst self' dt.
  rewrite update_integrate by exact Hact.
  cbn [rotor_flux_ slip_vel_ stator_phase_vel_].
  set (q := raw_slip _ _ _). set (thr := (F32.lit_0_1 / _)%f32).
  intros Hq Hthr.
  assert (Hclamp : clamp_slip q (time_step clock timestamp (last_timestamp_ self))
                   = F32.zero).
  { unfold clamp_slip. fold thr.
    destruct q as [| sq | |]; try discriminate Hq.
    change (F32.abs (S754_infinity sq)) with (S754_infinity false).
    rewrite (NanFacts.gtb_infinity_finite thr Hthr). reflexivity. }
  rewrite Hclamp. split; reflexivity.
Qed.

(** ** The fixed point of the flux lag *)

(** X11. The lag rests at its target, rounding included: in a cycle that
    integrates, if [id] equals the current [rotor_flux] (a finite number)
    and [slip_gain] and [dt] are finite, then [rotor_flux] is left as it
    is (a negative zero may become the positive zero). *)
Theorem rotor_flux_rests_at_id clock wrap self
    rotor_phase rotor_phase_vel iq timestamp :
  active_ self = true ->
  F32.is_finite (rotor_flux_ self) = true ->
  F32.is_finite (slip_velocity (config_ self)) = true ->
  F32.is_finite (time_step clock timestamp (last_timestamp_ self)) = true ->
  let self' :=
    update clock wrap self
      (present rotor_phase rotor_phase_vel (rotor_flux_ self) iq) timestamp in
  rotor_flux_ self' = rotor_flux_ self \/
  (rotor_flux_ self = S754_zero true /\ rotor_flux_ self' = S754_zero false).
Proof.
  intros Hact Hflux Hk Hdt self'. subst self'.
  rewrite update_integrate by exact Hact. cbn [rotor_flux_]. unfold flux_step.
  rewrite (NanFacts.sub_diag _ Hflux). change F32.zero with (S754_zero false).
  destruct (NanFacts.mul_zero_r _ false Hk) as [s1 Hs1]. rewrite Hs1.
  destruct (NanFacts.mul_zero_l s1 _ Hdt) as [s2 Hs2]. rewrite Hs2.
  apply F32Facts.add_zero_r.
Qed.


(** * The further properties at concrete inputs *)

Module ExtraInstances.

Import Example ExtraExample.

Lemma clock_pos : F32.is_pos_finite (F32.of_Z clock) = true.
Proof. reflexivity. Qed.

(** X3 with an estimator never run and one deactivated in mid-run. *)
Lemma restart_forgets_history_witness :
  active_ fresh = false /\ active_ stale = false /\
  config_ fresh = config_ stale /\
  update clock wrap_pm_pi_model
    (update clock wrap_pm_pi_model fresh ports_id0 20000) ports 20800 =
  update clock wrap_pm_pi_model
    (update clock wrap_pm_pi_model stale ports 20000) ports 20800.
Proof.
  split; [reflexivity |]. split; [reflexivity |]. split; [reflexivity |].
  apply (restart_forgets_history clock wrap_pm_pi_model fresh stale
           F32.zero (f 100) F32.zero (f 5) F32.zero (f 100) (f 10) (f 5) 20000
           F32.zero (f 100) (f 10) (f 5) 20800);
    reflexivity.
Defined.

(** X4 with a dropout of two cycles. *)
Lemma dropout_then_restart_witness :
  Forall (fun c => input_missing (fst c)) [(no_idq, 1800); (no_idq, 2600)] /\
  [(no_idq, 1800); (no_idq, 2600)] <> [] /\
  slip_vel_
    (run clock wrap_pm_pi_model running
       ([(no_idq, 1800); (no_idq, 2600)] ++ [(ports, 3400)])) = f 2 /\
  rotor_flux_
    (run clock wrap_pm_pi_model running
       ([(no_idq, 1800); (no_idq, 2600)] ++ [(ports, 3400)])) = F32.zero.
Proof.
  assert (Hmiss : input_missing no_idq) by (right; right; reflexivity).
  assert (Hall : Forall (fun c : InputPorts * Z => input_missing (fst c))
                   [(no_idq, 1800); (no_idq, 2600)])
    by (repeat constructor; exact Hmiss).
  assert (Hne : [(no_idq, 1800); (no_idq, 2600)] <> []) by discriminate.
  split; [exact Hall |]. split; [exact Hne |].
  destruct (dropout_then_restart clock wrap_pm_pi_model running _
              F32.zero (f 100) (f 10) (f 5) 3400 Hall Hne)
    as (Hs & _ & _ & Hf & _).
  split; [exact Hs | exact Hf].
Defined.

(** X6 with a tick count behind the stored one. *)
Lemma time_step_never_negative_witness :
  F32.is_pos_finite (F32.of_Z clock) = true /\
  F32.leb F32.zero (time_step clock 5 1000) = true.
Proof.
  split; [reflexivity |].
  apply (time_step_never_negative clock clock_pos 5 1000).
Defined.

(** X7 at a running estimator. *)
Lemma slip_vel_within_threshold_witness :
  F32.is_pos_finite (F32.of_Z clock) = true /\
  active_ running = true /\
  is_nan (slip_vel_ (update clock wrap_pm_pi_model running ports 1800)) = false.
Proof.
  split; [reflexivity |]. split; [reflexivity |].
  apply (slip_vel_within_threshold clock clock_pos wrap_pm_pi_model running
           F32.zero (f 100) (f 10) (f 5) 1800 eq_refl).
Defined.

(** X8 over two cycles. *)
Lemma nan_flux_persists_witness :
  active_ poisoned = true /\
  is_nan (rotor_flux_ poisoned) = true /\
  forallb (fun c => all_present (fst c)) [(ports, 1800); (ports, 2600)] = true /\
  is_nan
    (rotor_flux_
       (run clock wrap_pm_pi_model poisoned [(ports, 1800); (ports, 2600)])) = true.
Proof.
  split; [reflexivity |]. split; [reflexivity |]. split; [reflexivity |].
  apply (nan_flux_persists clock wrap_pm_pi_model
           [(ports, 1800); (ports, 2600)] poisoned eq_refl eq_refl eq_refl).
Defined.

(** X9 from a deactivated estimator, both calls at tick 777, [iq = 5]. *)
Lemma restart_on_same_tick_witness :
  F32.is_pos_finite (F32.of_Z clock) = true /\
  active_ stale = false /\
  F32.is_pos_finite (slip_velocity (config_ stale)) = true /\
  F32.is_finite (slip_velocity (config_ stale) * f 10)%f32 = true /\
  slip_vel_
    (update clock wrap_pm_pi_model
       (update clock wrap_pm_pi_model stale ports 777)
       (present F32.zero (f 100) (f 10) (S754_finite false 10485760 (-21))) 777) =
  S754_infinity false.
Proof.
  split; [reflexivity |]. split; [reflexivity |]. split; [reflexivity |].
  split; [reflexivity |].
  apply (restart_on_same_tick clock wrap_pm_pi_model stale
           F32.zero (f 100) (f 10) (f 5) F32.zero (f 100) (f 10)
           false 10485760 (-21) 777 clock_pos eq_refl eq_refl eq_refl).
Defined.

(** X10 on the first cycle after a bootstrap, with no d-axis current. *)
Lemma infinite_slip_is_clamped_witness :
  active_ booted = true /\
  is_infinite
    (raw_slip (slip_velocity (config_ booted)) (f 5)
       (rotor_flux_ (update clock wrap_pm_pi_model booted ports_id0 800))) = true /\
  F32.is_finite (F32.lit_0_1 / time_step clock 800 (last_timestamp_ booted))%f32
    = true /\
  slip_vel_ (update clock wrap_pm_pi_model booted ports_id0 800) = F32.zero.
Proof.
  assert (Hq : is_infinite
                 (raw_slip (slip_velocity (config_ booted)) (f 5)
                    (rotor_flux_
                       (update clock wrap_pm_pi_model booted ports_id0 800)))
               = true) by (vm_compute; reflexivity).
  assert (Hthr : F32.is_finite
                   (F32.lit_0_1 / time_step clock 800 (last_timestamp_ booted))%f32
                 = true) by (vm_compute; reflexivity).
  split; [reflexivity |]. split; [exact Hq |]. split; [exact Hthr |].
  apply (infinite_slip_is_clamped clock wrap_pm_pi_model booted
           F32.zero (f 100) F32.zero (f 5) 800 eq_refl Hq Hthr).
Defined.

(** X11 at an estimator whose flux has reached [id = 10]. *)
Lemma rotor_flux_rests_at_id_witness :
  active_ settled = true /\
  F32.is_finite (rotor_flux_ settled) = true /\
  F32.is_finite (slip_velocity (config_ settled)) = true /\
  F32.is_finite (time_step clock 1800 (last_timestamp_ settled)) = true /\
  rotor_flux_
    (update clock wrap_pm_pi_model settled
       (present F32.zero (f 100) (rotor_flux_ settled) (f 5)) 1800) = f 10.
Proof.
  split; [reflexivity |]. split; [reflexivity |]. split; [reflexivity |].
  split; [reflexivity |].
  destruct (rotor_flux_rests_at_id clock wrap_pm_pi_model settled
              F32.zero (f 100) (f 5) 1800 eq_refl eq_refl eq_refl eq_refl)
    as [H | [H _]]; [exact H | discriminate H].
Defined.


End ExtraInstances.
